(** * Mutation operators of qoop.evolution: a shallow embedding

    The development follows [src/qoop/evolution/mutate.py] and
    [src/qoop/evolution/normalizer.py].  Circuits are Python objects that the
    mutators overwrite in place, so they live in a heap and are passed around
    as references; every function runs in a small monad that threads the
    heap, the random source and a ghost trace of the calls made, and that
    ends in a value, in a raised exception, or out of fuel (the only loops
    that need fuel are the two [while True] redraw loops). *)

From Stdlib Require Import ZArith QArith Lia Bool.
From stdpp Require Import base list strings pretty.

Open Scope Z_scope.

(** ** Data model *)

(** The symbolic parameters handed to a gate constructor:
    [qiskit.circuit.Parameter(name)] and
    [qiskit.circuit.ParameterVector(name, length)]. *)
Inductive parameter_expr : Type :=
| Param (name : string)
| ParamVector (name : string) (size : nat).

(** A gate object: what the mutators read of it is [gate.name] and
    [gate.num_qubits]; the parameters it was built from are kept. *)
Record Instruction : Type := mkInstruction {
  name : string;
  num_qubits : nat;
  params : list parameter_expr
}.

Definition Qubit : Type := nat.
Definition Clbit : Type := nat.

(** One entry of [qc.data]: the triple (operation, qubits, clbits). *)
Record CircuitInstruction : Type := mkCircuitInstruction {
  operation : Instruction;
  qubits : list Qubit;
  clbits : list Clbit
}.

(** A circuit object: [qc.data] and [qc.num_qubits] (the field [width]; the
    name [num_qubits] is the gate's). *)
Record QuantumCircuit : Type := mkQuantumCircuit {
  data : list CircuitInstruction;
  width : nat
}.

(** A pool entry, the dict [{'operation': ctor, 'num_params': n}] (the field
    [ctor]; the name [operation] is the placement's); the constructor
    receives its positional arguments as a list. *)
Record descriptor : Type := mkDescriptor {
  ctor : list parameter_expr -> Instruction;
  num_params : nat
}.

(** ** Worlds, outcomes and the monad *)

Definition loc : Type := nat.

(** Where an [IndexError] was raised. *)
Inductive access : Type :=
| EmptyChoice      (* random.choice on an empty sequence *)
| CircuitPosition  (* qc.data[index] *)
| TargetQubit.     (* target_qubits[k] *)

Inductive exn : Type :=
| IndexError (site : access)
| NoSuchObject.    (* a reference that names no object: cannot arise in Python *)

(** Ghost trace: the calls whose occurrence the specification talks about. *)
Inductive call : Type :=
| CallSpecificMutate (qc : loc) (index : Z)
| CallSpecificMutateTesting (qc : loc) (index : Z)
| CallNormalizer (qc : loc)
| CallDivider (depth : Z) (qc : loc)
| CallDivideCircuitByDepth (qc : loc) (depth : Z)
| CallGenerateWithPool (n : nat) (depth : Z)
| CallComposeCircuit (parts : list loc)
| CallTruncateCircuit (qc : loc) (depth : Z).

Record world : Type := mkWorld {
  heap : list QuantumCircuit;
  entropy : nat -> N;       (* the random source, one raw value per draw *)
  cursor : nat;             (* number of draws consumed so far *)
  trace : list call
}.

Inductive outcome (A : Type) : Type :=
| Return (a : A)
| Raise (e : exn)
| OutOfFuel.
Arguments Return {A} a.
Arguments Raise {A} e.
Arguments OutOfFuel {A}.

Definition M (A : Type) : Type := world -> outcome A * world.

Definition ret {A} (a : A) : M A := fun w => (Return a, w).
Definition raise {A} (e : exn) : M A := fun w => (Raise e, w).
Definition out_of_fuel {A} : M A := fun w => (OutOfFuel, w).

Definition bind {A B} (m : M A) (k : A -> M B) : M B :=
  fun w =>
    match m w with
    | (Return a, w') => k a w'
    | (Raise e, w') => (Raise e, w')
    | (OutOfFuel, w') => (OutOfFuel, w')
    end.

Notation "'let*' x ':=' c 'in' k" := (bind c (fun x => k))
  (at level 10, x name, c at level 100, k at level 200).
Notation "'let*' ( x , y ) ':=' c 'in' k" := (bind c (fun p => let '(x, y) := p in k))
  (at level 10, x name, y name, c at level 100, k at level 200).

(** ** Python and qiskit primitives *)

(** Position denoted by a Python list index: negative indices count from
    the end, anything else out of range has no position. *)
Definition py_index {A} (l : list A) (i : Z) : option nat :=
  let n := Z.of_nat (length l) in
  if decide (0 <= i < n) then Some (Z.to_nat i)
  else if decide (- n <= i < 0) then Some (Z.to_nat (n + i))
  else None.

Definition getitem {A} (site : access) (l : list A) (i : Z) : M A :=
  match py_index l i with
  | Some k => match l !! k with
              | Some x => ret x
              | None => raise (IndexError site)
              end
  | None => raise (IndexError site)
  end.

Definition load (qc : loc) : M QuantumCircuit :=
  fun w => match heap w !! qc with
           | Some c => (Return c, w)
           | None => (Raise NoSuchObject, w)
           end.

Definition set_heap (h : list QuantumCircuit) (w : world) : world :=
  mkWorld h (entropy w) (cursor w) (trace w).

Definition alloc (c : QuantumCircuit) : M loc :=
  fun w => (Return (length (heap w)), set_heap (heap w ++ [c]) w).

(** [qc.data[index]] *)
Definition data_getitem (qc : loc) (index : Z) : M CircuitInstruction :=
  let* c := load qc in getitem CircuitPosition (data c) index.

(** [qc.data[index] = item], as the list assignment the code relies on.
    What qiskit itself checks of the item on such an assignment (the number
    of qubits against the gate, parameter names against those of the
    circuit; a [CircuitError]) is outside this model.  A statement below
    that a call returns after such an assignment is therefore to be read
    for items that pass those checks: a placement with as many target
    qubits as its gate ([well_formed]) and a gate without parameters
    ([parameter_free]) make an item pass them. *)
Definition data_setitem (qc : loc) (index : Z) (item : CircuitInstruction) : M unit :=
  let* c := load qc in
  match py_index (data c) index with
  | Some k => fun w =>
      (Return tt, set_heap (<[qc := mkQuantumCircuit (<[k := item]> (data c)) (width c)]> (heap w)) w)
  | None => raise (IndexError CircuitPosition)
  end.

Definition record (c : call) : M unit :=
  fun w => (Return tt, mkWorld (heap w) (entropy w) (cursor w) (trace w ++ [c])).

Definition draw : M N :=
  fun w => (Return (entropy w (cursor w)),
            mkWorld (heap w) (entropy w) (S (cursor w)) (trace w)).

(** [random.random()]: a multiple of 2^-53 in [0, 1). *)
Definition unit_interval (raw : N) : Q :=
  Qmake (Z.of_N raw mod 2 ^ 53) (2 ^ 53)%positive.

Definition random_random : M Q :=
  let* raw := draw in ret (unit_interval raw).

(** [random.choice(seq)] *)
Definition random_choice {A} (seq : list A) : M A :=
  match seq with
  | [] => raise (IndexError EmptyChoice)
  | x :: _ => let* raw := draw in ret (nth (N.to_nat (raw mod N.of_nat (length seq))) seq x)
  end.

(** [x < y] on the two floats *)
Definition float_lt (x y : Q) : bool := negb (Qle_bool y x).

(** ** mutate.py *)

(** Lines 18-23 (and 113-118): build the gate of a drawn descriptor. *)
Definition instantiate (new_gate : descriptor) (index : Z) : Instruction :=
  if (num_params new_gate =? 0)%nat then ctor new_gate []
  else if (num_params new_gate =? 1)%nat then ctor new_gate [Param (pretty index)]
  else ctor new_gate [ParamVector (pretty index) (num_params new_gate)].

(** Lines 16-25: the redraw loop, one draw per unit of fuel. *)
Fixpoint redraw (fuel : nat) (qc : loc) (pool : list descriptor) (index : Z)
  : M Instruction :=
  match fuel with
  | O => out_of_fuel
  | S fuel' =>
      let* new_gate := random_choice pool in
      let gate := instantiate new_gate index in
      let* old := data_getitem qc index in
      if (num_qubits gate =? num_qubits (operation old))%nat then ret gate
      else redraw fuel' qc pool index
  end.

(** Lines 6-31.  The first line only notes the call in the ghost trace. *)
Definition specific_mutate (fuel : nat) (qc : loc) (pool : list descriptor) (index : Z)
  : M loc :=
  let* _ := record (CallSpecificMutate qc index) in
  let* gate := redraw fuel qc pool index in
  let* old := data_getitem qc index in
  let target_qubits := qubits old in
  if (num_qubits gate =? 1)%nat then
    let* q0 := getitem TargetQubit target_qubits 0 in
    let* _ := data_setitem qc index (mkCircuitInstruction gate [q0] []) in
    ret qc
  else if (num_qubits gate =? 2)%nat then
    let* rebound :=
      (if (1 <? length target_qubits)%nat then
         let* q0 := getitem TargetQubit target_qubits 0 in
         let* q1 := getitem TargetQubit target_qubits 1 in
         ret [q0; q1]
       else
         let* q0 := getitem TargetQubit target_qubits 0 in
         ret [q0]) in
    let* _ := data_setitem qc index (mkCircuitInstruction gate rebound []) in
    ret qc
  else ret qc.

(** [for x in xs: s = body(x, s)] *)
Fixpoint for_each {A S} (xs : list A) (body : A -> S -> M S) (s : S) : M S :=
  match xs with
  | [] => ret s
  | x :: xs' => let* s' := body x s in for_each xs' body s'
  end.

(** [len(qc.data)] *)
Definition num_gates_of (qc : loc) : M nat :=
  let* c := load qc in ret (length (data c)).

(** One turn of the [for] loop of the three bitflip functions:
    [if random.random() < prob_mutate: qc = mutate(qc, index)]. *)
Definition bitflip_step (mutate : loc -> Z -> M loc) (prob_mutate : Q)
  (index : nat) (qc : loc) : M loc :=
  let* r := random_random in
  if float_lt r prob_mutate then mutate qc (Z.of_nat index) else ret qc.

(** Lines 62-67: the function returned by [bitflip_mutate(pool, prob_mutate)]. *)
Definition bitflip_mutate (pool : list descriptor) (prob_mutate : Q)
  (fuel : nat) (qc : loc) : M loc :=
  let* num_gates := num_gates_of qc in
  for_each (seq 0 num_gates)
    (bitflip_step (fun qc index => specific_mutate fuel qc pool index) prob_mutate) qc.

(** Lines 43-48: the same pass, piped through the injected normalizer. *)
Definition bitflip_mutate_with_normalizer (pool : list descriptor)
  (normalizer_func : loc -> M loc) (prob_mutate : Q) (fuel : nat) (qc : loc) : M loc :=
  let* num_gates := num_gates_of qc in
  let* qc := for_each (seq 0 num_gates)
    (bitflip_step (fun qc index => specific_mutate fuel qc pool index) prob_mutate) qc in
  let* _ := record (CallNormalizer qc) in
  normalizer_func qc.

(** [gate.name in ["rx", "ry", "rz"]] *)
Definition is_rotational (gate : Instruction) : bool :=
  existsb (String.eqb (name gate)) ["rx"; "ry"; "rz"]%string.

(** Line 106: [sum(1 for gate in qc.data if gate.operation.name in ...)] *)
Definition count_rotational (l : list CircuitInstruction) : nat :=
  length (List.filter (fun x => is_rotational (operation x)) l).

(** Lines 111-126: the redraw loop of the constrained variant. *)
Fixpoint redraw_testing (fuel : nat) (qc : loc) (pool : list descriptor) (index : Z)
  (current_is_rotational : bool) (num_rot_gates : nat) (n_qubits : Z)
  : M Instruction :=
  match fuel with
  | O => out_of_fuel
  | S fuel' =>
      let* new_gate := random_choice pool in
      let gate := instantiate new_gate index in
      let* old := data_getitem qc index in
      if (num_qubits gate =? num_qubits (operation old))%nat then
        if is_rotational gate
           || (negb current_is_rotational && (n_qubits <=? Z.of_nat num_rot_gates))
        then ret gate
        else redraw_testing fuel' qc pool index current_is_rotational num_rot_gates n_qubits
      else redraw_testing fuel' qc pool index current_is_rotational num_rot_gates n_qubits
  end.

(** Lines 93-131; [n_qubits] is the parameter [num_qubits]. *)
Definition specific_mutate_testing (fuel : nat) (qc : loc) (pool : list descriptor)
  (index : Z) (n_qubits : Z) : M loc :=
  let* _ := record (CallSpecificMutateTesting qc index) in
  let* c := load qc in
  let num_rot_gates := count_rotational (data c) in
  let* current := data_getitem qc index in
  let current_is_rotational := is_rotational (operation current) in
  let* gate := redraw_testing fuel qc pool index current_is_rotational num_rot_gates n_qubits in
  let* old := data_getitem qc index in
  let target_qubits := qubits old in
  let* _ := data_setitem qc index (mkCircuitInstruction gate target_qubits []) in
  ret qc.

(** Lines 145-150. *)
Definition bitflip_mutate_with_normalizer_testing (pool : list descriptor)
  (normalizer_func : loc -> M loc) (prob_mutate : Q) (n_qubits : Z)
  (fuel : nat) (qc : loc) : M loc :=
  let* num_gates := num_gates_of qc in
  let* qc := for_each (seq 0 num_gates)
    (bitflip_step
       (fun qc index => specific_mutate_testing fuel qc pool index n_qubits) prob_mutate)
    qc in
  let* _ := record (CallNormalizer qc) in
  normalizer_func qc.

(** A run of constrained mutations on one circuit, each step with its own
    fuel, pool and position. *)
Fixpoint mutate_many (steps : list (nat * list descriptor * Z)) (n_qubits : Z) (qc : loc)
  : M loc :=
  match steps with
  | [] => ret qc
  | (fuel, pool, index) :: steps' =>
      let* qc := specific_mutate_testing fuel qc pool index n_qubits in
      mutate_many steps' n_qubits qc
  end.

(** ** Collaborators outside the two source files

    [qc.depth()] belongs to qiskit; the dividers, the composition, the
    truncation and the random generator are imported from other modules of
    the package.  The code below is written against these two interfaces,
    and the trace entry of each call is recorded at the call site. *)

(** What normalizer.py relies on; mutate.py reads [qc.depth()] as well. *)
Class Dividers : Type := {
  depth : QuantumCircuit -> nat;                        (* qc.depth() *)
  divider_by_depth : Z -> loc -> M (loc * loc)          (* divider.by_depth(depth)(qc) *)
}.

(** What mutate.py imports from [..backend.utilities] and [..core.random_circuit]. *)
Class Utilities : Type := {
  divide_circuit_by_depth : loc -> Z -> M (loc * loc);
  compose_circuit : list loc -> M loc;
  truncate_circuit : loc -> Z -> M loc;
  generate_with_pool : nat -> Z -> M loc
}.

(** [qc.depth()] on a reference *)
Definition depth_of {D : Dividers} (qc : loc) : M nat :=
  let* c := load qc in ret (depth c).

(** [qc.num_qubits] *)
Definition num_qubits_of (qc : loc) : M nat :=
  let* c := load qc in ret (width c).

(** [qc.copy()] *)
Definition copy (qc : loc) : M loc :=
  let* c := load qc in alloc c.

(** ** normalizer.py, lines 33-39: the function returned by [by_depth(depth)] *)
Definition by_depth {D : Dividers} (target : Z) (qc : loc) : M loc :=
  let* d := depth_of qc in
  if Z.of_nat d <=? target then ret qc
  else
    let* _ := record (CallDivider target qc) in
    let* (qc1, _rest) := divider_by_depth target qc in
    ret qc1.

(** ** mutate.py, lines 81-89 *)

(** Lines 83-88: one turn of the loop. *)
Definition layerflip_step {D : Dividers} {U : Utilities} (prob_mutate : Q) (standard_depth : nat)
  (index : nat) (qc : loc) : M loc :=
  let* r := random_random in
  if float_lt r prob_mutate then
    let* _ := record (CallDivideCircuitByDepth qc (Z.of_nat index)) in
    let* (qc1, qc2) := divide_circuit_by_depth qc (Z.of_nat index) in
    let* _ := record (CallDivideCircuitByDepth qc2 1) in
    let* (qc21, qc22) := divide_circuit_by_depth qc2 1 in
    let* n := num_qubits_of qc in
    let* _ := record (CallGenerateWithPool n 1) in
    let* genome := generate_with_pool n 1 in
    let* _ := record (CallComposeCircuit [qc1; genome; qc22]) in
    let* qc := compose_circuit [qc1; genome; qc22] in
    let* qc' := copy qc in
    let* _ := record (CallTruncateCircuit qc' (Z.of_nat standard_depth)) in
    truncate_circuit qc' (Z.of_nat standard_depth)
  else ret qc.

(** Lines 81-82 and 89: the depth is read once, before the loop. *)
Definition layerflip_mutate {D : Dividers} {U : Utilities} (qc : loc) (prob_mutate : Q)
  : M loc :=
  let* standard_depth := depth_of qc in
  for_each (seq 0 standard_depth) (layerflip_step prob_mutate standard_depth) qc.

(** ** The collaborators as the specification describes them *)

Module SpecModel.

(** Depth reached so far on every qubit, after the gate on [qs] went to
    level [lv]. *)
Definition bump (front : Qubit -> nat) (qs : list Qubit) (lv : nat) : Qubit -> nat :=
  fun q => if existsb (Nat.eqb q) qs then lv else front q.

(** Level of a placement: one more than the deepest of its qubits. *)
Definition level_of (front : Qubit -> nat) (x : CircuitInstruction) : nat :=
  S (max_list (map front (qubits x))).

Fixpoint chain_depth (front : Qubit -> nat) (l : list CircuitInstruction) : nat :=
  match l with
  | [] => 0%nat
  | x :: l' =>
      let lv := level_of front x in
      Nat.max lv (chain_depth (bump front (qubits x) lv) l')
  end.

(** Modelled from the spec: the depth query of the circuit ([qc.depth()],
    not under src/), "the longest dependency chain length"; two placements
    depend on each other when they share a qubit.  Every placement counts
    for one level and classical bits carry no dependency: this is the depth
    of circuits made of gates on qubits, the only ones the statements about
    depth below are read on. *)
Definition spec_depth (c : QuantumCircuit) : nat :=
  chain_depth (fun _ => 0%nat) (data c).

(** Placements at depth offsets [0, d) and placements at offsets [d, end),
    both in circuit order. *)
Fixpoint split_layers (front : Qubit -> nat) (d : nat) (l : list CircuitInstruction)
  : list CircuitInstruction * list CircuitInstruction :=
  match l with
  | [] => ([], [])
  | x :: l' =>
      let lv := level_of front x in
      let rest := split_layers (bump front (qubits x) lv) d l' in
      if (lv <=? d)%nat then (x :: rest.1, rest.2) else (rest.1, x :: rest.2)
  end.

(** Modelled from the spec: the depth-divider ([utilities.divide_circuit_by_depth]
    and [divider.by_depth], not under src/), "split the circuit into a prefix
    (depths [0, index)) and a suffix (depths [index, end))"; both parts are
    new circuits over the same qubits. *)
Definition spec_divide_circuit_by_depth (qc : loc) (d : Z) : M (loc * loc) :=
  let* c := load qc in
  let parts := split_layers (fun _ => 0%nat) (Z.to_nat d) (data c) in
  let* qc1 := alloc (mkQuantumCircuit parts.1 (width c)) in
  let* qc2 := alloc (mkQuantumCircuit parts.2 (width c)) in
  ret (qc1, qc2).

#[export] Instance spec_dividers : Dividers := {
  depth := spec_depth;
  divider_by_depth := fun d qc => spec_divide_circuit_by_depth qc d
}.

(** [data] of every part, in order. *)
Fixpoint gather (parts : list loc) : M (list CircuitInstruction) :=
  match parts with
  | [] => ret []
  | p :: parts' =>
      let* c := load p in
      let* more := gather parts' in
      ret (data c ++ more)
  end.

(** Modelled from the spec: [utilities.compose_circuit] (not under src/),
    "compose prefix + fresh layer + rest, in that order, into one circuit". *)
Definition spec_compose_circuit (parts : list loc) : M loc :=
  let* n := match parts with
            | [] => ret 0%nat
            | p :: _ => num_qubits_of p
            end in
  let* all := gather parts in
  alloc (mkQuantumCircuit all n).

(** Modelled from the spec: [utilities.truncate_circuit] (not under src/),
    "truncate the composed circuit back to the circuit's original standard
    depth using the depth-normalizer, discarding structure beyond that
    depth": the depth-normalizer is [by_depth] of normalizer.py. *)
Definition spec_truncate_circuit (qc : loc) (selected_depth : Z) : M loc :=
  by_depth selected_depth qc.

(** The random generator stays an injected dependency. *)
#[export] Instance spec_utilities (generate : nat -> Z -> M loc) : Utilities := {
  divide_circuit_by_depth := spec_divide_circuit_by_depth;
  compose_circuit := spec_compose_circuit;
  truncate_circuit := spec_truncate_circuit;
  generate_with_pool := generate
}.

End SpecModel.

(** ** Sample gates, pools, circuits and worlds *)

Module Samples.

Definition gate (nm : string) (arity : nat) : descriptor :=
  mkDescriptor (fun args => mkInstruction nm arity args) 0.

Definition rotation (nm : string) : descriptor :=
  mkDescriptor (fun args => mkInstruction nm 1 args) 1.

Definition place (nm : string) (qs : list Qubit) : CircuitInstruction :=
  mkCircuitInstruction (mkInstruction nm (length qs) []) qs [].

(** A pool in the style of the package's default: one- and two-qubit gates. *)
Definition pool12 : list descriptor :=
  [gate "h" 1; gate "cx" 2; rotation "rx"; rotation "ry"; rotation "rz"].

(** A pool that also offers a three-qubit gate. *)
Definition pool3 : list descriptor := [gate "cswap" 3].

(** h on q0, then cx q0 q1, then h on q1: depth 3 on two qubits. *)
Definition ladder : QuantumCircuit :=
  mkQuantumCircuit [place "h" [0%nat]; place "cx" [0%nat; 1%nat]; place "h" [1%nat]] 2.

(** A single Toffoli gate on three qubits. *)
Definition toffoli : QuantumCircuit :=
  mkQuantumCircuit [place "ccx" [0%nat; 1%nat; 2%nat]] 3.

(** rx, ry on two qubits followed by a cx. *)
Definition rotations : QuantumCircuit :=
  mkQuantumCircuit
    [mkCircuitInstruction (mkInstruction "rx" 1 [Param "0"]) [0%nat] [];
     mkCircuitInstruction (mkInstruction "ry" 1 [Param "1"]) [1%nat] [];
     place "cx" [0%nat; 1%nat]] 2.

(** A world holding one circuit, with a given random source. *)
Definition world_of (c : QuantumCircuit) (src : nat -> N) : world :=
  mkWorld [c] src 0 [].

(** Raw values [k, k+1, k+2, ...]: [random.choice] walks through the pool. *)
Definition counting (k : N) : nat -> N := fun i => (k + N.of_nat i)%N.

(** [random.random()] gives 1/2 on every draw but the second, where it gives 0. *)
Definition second_only : nat -> N :=
  fun i => if (i =? 1)%nat then 0%N else (2 ^ 52)%N.

(** A generator that answers with [d] layers of one h gate per qubit. *)
Definition hadamard_layers (n : nat) (d : Z) : M loc :=
  alloc (mkQuantumCircuit
           (concat (replicate (Z.to_nat d) (map (fun q => place "h" [q]) (seq 0 n)))) n).

End Samples.

(** ** Observations on worlds *)

(** The placement that [qc.data[index]] denotes in a world, if any. *)
Definition item_at (w : world) (qc : loc) (index : Z) : option CircuitInstruction :=
  match heap w !! qc with
  | Some c => match py_index (data c) index with
              | Some k => data c !! k
              | None => None
              end
  | None => None
  end.

(** Number of rotation gates of the circuit behind a reference. *)
Definition rotations_at (w : world) (qc : loc) : option nat :=
  match heap w !! qc with
  | Some c => Some (count_rotational (data c))
  | None => None
  end.

(** [n] further draws consumed, nothing else touched. *)
Definition skip_draws (n : nat) (w : world) : world :=
  mkWorld (heap w) (entropy w) (cursor w + n)%nat (trace w).

(** The descriptor that [random.choice(pool)] picks on a raw value. *)
Definition chosen (pool : list descriptor) (raw : N) : option descriptor :=
  match pool with
  | [] => None
  | x :: _ => Some (nth (N.to_nat (raw mod N.of_nat (length pool))) pool x)
  end.

(** A draw the loop accepts at a position: same qubit arity. *)
Definition accepts (index : Z) (old : CircuitInstruction) (d : descriptor) : bool :=
  (num_qubits (instantiate d index) =? num_qubits (operation old))%nat.

(** The placement lines 26-30 write for an accepted gate of arity 1 or 2:
    the gate on the leading target qubits, no classical bits. *)
Definition rebind (g : Instruction) (old : CircuitInstruction) : CircuitInstruction :=
  mkCircuitInstruction g (take (num_qubits g) (qubits old)) [].

(** The heap after [qc.data[k] = item]. *)
Definition overwrite (qc : loc) (c : QuantumCircuit) (k : nat) (item : CircuitInstruction)
  (h : list QuantumCircuit) : list QuantumCircuit :=
  <[qc := mkQuantumCircuit (<[k := item]> (data c)) (width c)]> h.

(** What a computation leaves alone, whatever its outcome. *)
Definition preserves {A X} (f : world -> X) (m : M A) : Prop :=
  forall w, f (m w).2 = f w.

(** ** The other two normalizers of normalizer.py *)

(** What normalizer.py imports from [.divider] besides the depth divider. *)
Class CountDividers : Type := {
  divider_by_num_cnot : Z -> loc -> M (loc * loc);
  divider_by_num_rotation_gate : Z -> loc -> M (loc * loc)
}.

(** Lines 17-19: the function returned by [by_num_cnot(num_cnot)]. *)
Definition by_num_cnot {C : CountDividers} (num_cnot : Z) (qc : loc) : M loc :=
  let* (qc1, _rest) := divider_by_num_cnot num_cnot qc in
  ret qc1.

(** Lines 52-60: the function returned by [by_num_rotation_gate(num_rotation)];
    [for inst in qc] walks [qc.data], and [inst[0]] is the operation. *)
Definition by_num_rotation_gate {C : CountDividers} (num_rotation : Z) (qc : loc) : M loc :=
  let* c := load qc in
  let rotation_count := count_rotational (data c) in
  if Z.of_nat rotation_count <=? num_rotation then ret qc
  else
    let* (qc1, _rest) := divider_by_num_rotation_gate num_rotation qc in
    ret qc1.

(** ** Relations between the world before and the world after *)

(** A computation keeps a relation between worlds, whatever its outcome. *)
Definition maintains {A} (R : world -> world -> Prop) (m : M A) : Prop :=
  forall w, R w (m w).2.

(** What the mutators never change of a circuit: its gate count, the qubit
    arity found at each position, and its number of qubits. *)
Definition shape (c : QuantumCircuit) : list nat * nat :=
  (map (fun x => num_qubits (operation x)) (data c), width c).

(** Every object of the heap has kept its shape, and no object was added. *)
Definition shapes_kept (w w' : world) : Prop :=
  map shape (heap w') = map shape (heap w).

(** The target qubits of every placement of a circuit, in order. *)
Definition wiring (c : QuantumCircuit) : list (list Qubit) :=
  map qubits (data c).

(** Every object of the heap has kept its shape and its wiring. *)
Definition wiring_kept (w w' : world) : Prop :=
  map shape (heap w') = map shape (heap w) /\
  map wiring (heap w') = map wiring (heap w).

(** Every object that existed is still there, unchanged: the heap only grew. *)
Definition only_allocated (w w' : world) : Prop :=
  exists fresh, heap w' = heap w ++ fresh.

(** The circuit behind [qc] has not lost a rotation gate. *)
Definition rotations_not_lowered (qc : loc) (w w' : world) : Prop :=
  forall n, rotations_at w qc = Some n ->
            exists n', rotations_at w' qc = Some n' /\ (n <= n')%nat.

(** The placement invariant: as many target qubits as the operation's arity. *)
Definition well_formed (c : QuantumCircuit) : Prop :=
  Forall (fun x => length (qubits x) = num_qubits (operation x)) (data c).

(** From a heap of well-formed circuits to a heap of well-formed circuits
    with the same wiring. *)
Definition well_formed_wiring_kept (w w' : world) : Prop :=
  Forall well_formed (heap w) ->
  Forall well_formed (heap w') /\ map wiring (heap w') = map wiring (heap w).




(** A computation that does not return has written nothing to the heap. *)
Definition fails_cleanly {A} (m : M A) : Prop :=
  forall w o w', m w = (o, w') -> (forall a, o <> Return a) -> heap w' = heap w.

(** ** Basic facts about the primitives *)

Lemma py_index_lt {A} (l : list A) (i : Z) (k : nat) :
  py_index l i = Some k -> (k < length l)%nat.
Proof.
  unfold py_index. repeat case_decide; intros [= <-]; lia.
Qed.

Lemma py_index_ge {A} (l : list A) (i : Z) :
  Z.of_nat (length l) <= i -> py_index l i = None.
Proof.
  intros Hi. unfold py_index. repeat case_decide; try reflexivity; lia.
Qed.

Lemma py_index_nat {A} (l : list A) (k : nat) :
  (k < length l)%nat -> py_index l (Z.of_nat k) = Some k.
Proof.
  intros Hk. unfold py_index. case_decide; [f_equal; lia | lia].
Qed.

Lemma getitem_Return {A} site (l : list A) (i : Z) (w : world) (x : A) (w' : world) :
  getitem site l i w = (Return x, w') ->
  w' = w /\ exists k, py_index l i = Some k /\ l !! k = Some x.
Proof.
  unfold getitem. destruct (py_index l i) as [k|] eqn:Hk; [|discriminate].
  destruct (l !! k) as [y|] eqn:Hy; [|discriminate].
  intros [= -> ->]. eauto.
Qed.

Lemma data_getitem_item_at (qc : loc) (index : Z) (w : world) :
  data_getitem qc index w =
    match heap w !! qc with
    | None => (Raise NoSuchObject, w)
    | Some c => match item_at w qc index with
                | Some x => (Return x, w)
                | None => (Raise (IndexError CircuitPosition), w)
                end
    end.
Proof.
  unfold data_getitem, bind, load, item_at, getitem.
  destruct (heap w !! qc) as [c|]; [|reflexivity].
  destruct (py_index (data c) index) as [k|]; [|reflexivity].
  destruct (data c !! k); reflexivity.
Qed.

Lemma data_getitem_Return (qc : loc) (index : Z) (w : world) x w' :
  data_getitem qc index w = (Return x, w') -> w' = w /\ item_at w qc index = Some x.
Proof.
  rewrite data_getitem_item_at. destruct (heap w !! qc); [|discriminate].
  destruct (item_at w qc index); [|discriminate]. intros [= -> ->]. auto.
Qed.

Lemma item_at_same_heap (w w' : world) (qc : loc) (index : Z) :
  heap w' = heap w -> item_at w' qc index = item_at w qc index.
Proof. unfold item_at. intros ->. reflexivity. Qed.

Lemma item_at_Some (w : world) (qc : loc) (index : Z) (x : CircuitInstruction) :
  item_at w qc index = Some x <->
  exists c k, heap w !! qc = Some c /\ py_index (data c) index = Some k /\ data c !! k = Some x.
Proof.
  unfold item_at. split.
  - destruct (heap w !! qc) as [c|]; [|discriminate].
    destruct (py_index (data c) index) as [k|] eqn:Hk; [|discriminate].
    intros Hx. exists c, k. auto.
  - intros (c & k & -> & -> & Hx). exact Hx.
Qed.

Lemma data_setitem_Return (qc : loc) (index : Z) item (w : world) u w' :
  data_setitem qc index item w = (Return u, w') ->
  exists c k,
    heap w !! qc = Some c /\ py_index (data c) index = Some k /\
    w' = set_heap (<[qc := mkQuantumCircuit (<[k := item]> (data c)) (width c)]> (heap w)) w.
Proof.
  unfold data_setitem, bind, load.
  destruct (heap w !! qc) as [c|] eqn:Hc; [|discriminate].
  destruct (py_index (data c) index) as [k|] eqn:Hk; [|discriminate].
  intros [= <- <-]. eauto.
Qed.

Lemma item_at_setitem (w : world) (qc : loc) (index : Z) c k item :
  heap w !! qc = Some c ->
  py_index (data c) index = Some k ->
  item_at (set_heap (<[qc := mkQuantumCircuit (<[k := item]> (data c)) (width c)]> (heap w)) w)
          qc index = Some item.
Proof.
  intros Hc Hk. unfold item_at, set_heap; simpl.
  rewrite list_lookup_insert_eq by (eapply lookup_lt_Some; eassumption).
  simpl. pose proof (py_index_lt _ _ _ Hk) as Hlt.
  assert (Hk' : py_index (<[k := item]> (data c)) index = Some k).
  { unfold py_index in *. rewrite length_insert. exact Hk. }
  rewrite Hk'. apply list_lookup_insert_eq. exact Hlt.
Qed.

Lemma skip_draws_0 (w : world) : skip_draws 0 w = w.
Proof. destruct w. unfold skip_draws. simpl. rewrite Nat.add_0_r. reflexivity. Qed.

Lemma skip_draws_add (n m : nat) (w : world) :
  skip_draws n (skip_draws m w) = skip_draws (m + n) w.
Proof. unfold skip_draws. simpl. rewrite Nat.add_assoc. reflexivity. Qed.

Lemma bind_record {B} (e : call) (k : unit -> M B) (w : world) :
  bind (record e) k w = k tt (mkWorld (heap w) (entropy w) (cursor w) (trace w ++ [e])).
Proof. reflexivity. Qed.

Lemma random_choice_spec (pool : list descriptor) (w : world) :
  random_choice pool w =
    match chosen pool (entropy w (cursor w)) with
    | Some d => (Return d, skip_draws 1 w)
    | None => (Raise (IndexError EmptyChoice), w)
    end.
Proof.
  unfold random_choice, chosen. destruct pool as [|x pool]; [reflexivity|].
  unfold bind, draw, ret, skip_draws. simpl.
  repeat f_equal. lia.
Qed.

Lemma chosen_In (pool : list descriptor) (raw : N) (d : descriptor) :
  chosen pool raw = Some d -> In d pool.
Proof.
  assert (Hnth : forall (l : list descriptor) x, l <> [] ->
            In (nth (N.to_nat (raw mod N.of_nat (length l))) l x) l).
  { intros l x Hl. apply nth_In.
    assert (Hlen : N.of_nat (length l) <> 0%N) by (destruct l; simpl; [congruence | lia]).
    pose proof (N.mod_lt raw _ Hlen). lia. }
  unfold chosen. destruct pool as [|x pool]; [discriminate|].
  intros Heq. injection Heq as Heq. rewrite <- Heq.
  exact (Hnth (x :: pool) x ltac:(discriminate)).
Qed.

Lemma chosen_nonempty (pool : list descriptor) (raw : N) :
  pool <> [] -> exists d, chosen pool raw = Some d.
Proof. destruct pool; [congruence|]. intros _. simpl. eauto. Qed.


(** *** Frame facts: what a computation leaves alone, whatever its outcome *)

Lemma preserves_bind {A B X} (f : world -> X) (m : M A) (k : A -> M B) :
  preserves f m -> (forall a, preserves f (k a)) -> preserves f (bind m k).
Proof.
  intros Hm Hk w. unfold bind. specialize (Hm w).
  destruct (m w) as [[a| |] w1]; simpl in *; try exact Hm.
  rewrite Hk. exact Hm.
Qed.

Lemma preserves_ret {A X} (f : world -> X) (a : A) : preserves f (ret a).
Proof. intros w. reflexivity. Qed.

Lemma preserves_raise {A X} (f : world -> X) (e : exn) : preserves f (@raise A e).
Proof. intros w. reflexivity. Qed.

Lemma preserves_out_of_fuel {A X} (f : world -> X) : preserves f (@out_of_fuel A).
Proof. intros w. reflexivity. Qed.

Lemma preserves_getitem {A X} (f : world -> X) site (l : list A) i :
  preserves f (getitem site l i).
Proof.
  unfold getitem. destruct (py_index l i) as [k|]; [|apply preserves_raise].
  destruct (l !! k); [apply preserves_ret | apply preserves_raise].
Qed.

Lemma preserves_load {X} (f : world -> X) qc : preserves f (load qc).
Proof. intros w. unfold load. destruct (heap w !! qc); reflexivity. Qed.

Lemma preserves_data_getitem {X} (f : world -> X) qc index :
  preserves f (data_getitem qc index).
Proof.
  apply preserves_bind; [apply preserves_load | intros c; apply preserves_getitem].
Qed.

Lemma preserves_trace_data_setitem qc index item :
  preserves trace (data_setitem qc index item).
Proof.
  apply preserves_bind; [apply preserves_load | intros c].
  destruct (py_index (data c) index); [intros w; reflexivity | apply preserves_raise].
Qed.

Lemma preserves_heap_random_choice {A} (seq : list A) : preserves heap (random_choice seq).
Proof. destruct seq; intros w; reflexivity. Qed.

Lemma preserves_trace_random_choice {A} (seq : list A) : preserves trace (random_choice seq).
Proof. destruct seq; intros w; reflexivity. Qed.

Lemma preserves_trace_redraw fuel qc pool index :
  preserves trace (redraw fuel qc pool index).
Proof.
  induction fuel as [|fuel IH]; simpl; [apply preserves_out_of_fuel|].
  apply preserves_bind; [apply preserves_trace_random_choice | intros d].
  apply preserves_bind; [apply preserves_data_getitem | intros old].
  destruct (_ =? _)%nat; [apply preserves_ret | exact IH].
Qed.

(** ** The redraw loop *)

Lemma redraw_Return fuel qc pool index w g w' :
  redraw fuel qc pool index w = (Return g, w') ->
  heap w' = heap w /\ trace w' = trace w /\ entropy w' = entropy w /\
  exists old d,
    item_at w qc index = Some old /\ In d pool /\
    g = instantiate d index /\ accepts index old d = true.
Proof.
  revert w. induction fuel as [|fuel IH]; intros w; simpl; [discriminate|].
  unfold bind at 1. rewrite random_choice_spec.
  destruct (chosen pool (entropy w (cursor w))) as [d|] eqn:Hd; [|discriminate].
  unfold bind at 1. rewrite data_getitem_item_at.
  change (heap (skip_draws 1 w)) with (heap w).
  destruct (heap w !! qc) as [c|] eqn:Hc; [|discriminate].
  rewrite (item_at_same_heap w (skip_draws 1 w)) by reflexivity.
  destruct (item_at w qc index) as [old|] eqn:Hold; [|discriminate].
  destruct (num_qubits (instantiate d index) =? num_qubits (operation old))%nat eqn:Hacc.
  - intros [= <- <-]. repeat split; try reflexivity.
    exists old, d. eauto using chosen_In.
  - intros Hrun. apply IH in Hrun as (Hh & Ht & He & old' & d' & Ho & Hin & Hg & Ha).
    simpl in Hh, Ht, He. repeat split; try assumption.
    rewrite (item_at_same_heap w (skip_draws 1 w)) in Ho by reflexivity.
    exists old', d'. repeat split; congruence || assumption.
Qed.

(** ** The Site Mutator *)

Lemma getitem_nat {A} site (l : list A) (k : nat) (w : world) (x : A) (w' : world) :
  getitem site l (Z.of_nat k) w = (Return x, w') -> w' = w /\ l !! k = Some x.
Proof.
  intros Hg. apply getitem_Return in Hg as (-> & k' & Hk & Hx).
  split; [reflexivity|].
  assert (k' = k) as <-; [|exact Hx].
  unfold py_index in Hk. repeat case_decide; try discriminate; try lia.
  injection Hk as <-. lia.
Qed.

(** Lines 27-30, after the loop: which target qubits the new placement gets. *)
Lemma rebound_qubits (g : Instruction) (old : CircuitInstruction) (w : world) qs w' :
  (if (1 <? length (qubits old))%nat then
     let* q0 := getitem TargetQubit (qubits old) 0 in
     let* q1 := getitem TargetQubit (qubits old) 1 in
     ret [q0; q1]
   else
     let* q0 := getitem TargetQubit (qubits old) 0 in
     ret [q0]) w = (Return qs, w') ->
  w' = w /\ qs = take 2 (qubits old).
Proof.
  destruct (1 <? length (qubits old))%nat eqn:Hlen; unfold bind at 1.
  - destruct (getitem TargetQubit (qubits old) 0 w) as [[q0| |] w1] eqn:H0; try discriminate.
    apply (getitem_nat _ _ 0%nat) in H0 as [-> H0]. unfold bind at 1.
    destruct (getitem TargetQubit (qubits old) 1 w) as [[q1| |] w1] eqn:H1; try discriminate.
    apply (getitem_nat _ _ 1%nat) in H1 as [-> H1]. intros [= <- <-].
    split; [reflexivity|].
    destruct (qubits old) as [|a [|b l]]; simplify_eq/=; reflexivity.
  - destruct (getitem TargetQubit (qubits old) 0 w) as [[q0| |] w1] eqn:H0; try discriminate.
    apply (getitem_nat _ _ 0%nat) in H0 as [-> H0]. intros [= <- <-].
    split; [reflexivity|]. apply Nat.ltb_ge in Hlen.
    destruct (qubits old) as [|a [|b l]]; simplify_eq/=; try reflexivity; lia.
Qed.

(** Everything a returning call of [specific_mutate] did. *)
Lemma specific_mutate_Return fuel qc pool index w r w' :
  specific_mutate fuel qc pool index w = (Return r, w') ->
  r = qc /\
  trace w' = trace w ++ [CallSpecificMutate qc index] /\
  entropy w' = entropy w /\
  exists c k old d,
    heap w !! qc = Some c /\ py_index (data c) index = Some k /\
    data c !! k = Some old /\ In d pool /\ accepts index old d = true /\
    heap w' =
      (let g := instantiate d index in
       if (num_qubits g =? 1)%nat || (num_qubits g =? 2)%nat
       then overwrite qc c k (rebind g old) (heap w)
       else heap w).
Proof.
  intros Hrun. unfold specific_mutate in Hrun. unfold bind at 1 in Hrun. simpl in Hrun.
  set (w1 := mkWorld (heap w) (entropy w) (cursor w) (trace w ++ _)) in Hrun.
  unfold bind at 1 in Hrun.
  destruct (redraw fuel qc pool index w1) as [[g| |] w2] eqn:Hloop; try discriminate.
  apply redraw_Return in Hloop as (Hh & Ht & He & old & d & Hold & Hin & Hg & Hacc).
  simpl in Hh, Ht, He.
  assert (Hold2 : item_at w2 qc index = Some old).
  { rewrite (item_at_same_heap w1 w2) by exact Hh. exact Hold. }
  apply item_at_Some in Hold as (c & k & Hc & Hk & Hx). simpl in Hc.
  unfold bind at 1 in Hrun. rewrite data_getitem_item_at, Hold2, Hh, Hc in Hrun.
  subst g. set (g := instantiate d index) in *.
  assert (Hdone : forall qs u w3,
    data_setitem qc index (mkCircuitInstruction g qs []) w2 = (Return u, w3) ->
    qs = take (num_qubits g) (qubits old) ->
    trace w3 = trace w ++ [CallSpecificMutate qc index] /\ entropy w3 = entropy w /\
    heap w3 = overwrite qc c k (rebind g old) (heap w)).
  { intros qs u w3 Hs ->.
    apply data_setitem_Return in Hs as (c' & k' & Hc' & Hk' & ->).
    rewrite Hh in Hc'. simpl in Hc'. rewrite Hc in Hc'. injection Hc' as <-.
    rewrite Hk in Hk'. injection Hk' as <-.
    simpl. rewrite Hh. auto. }
  assert (Hfin : forall w3 : world,
    trace w3 = trace w ++ [CallSpecificMutate qc index] /\ entropy w3 = entropy w /\
    heap w3 = (if (num_qubits g =? 1)%nat || (num_qubits g =? 2)%nat
               then overwrite qc c k (rebind g old) (heap w) else heap w) ->
    (Return qc, w3) = (Return r, w') ->
    r = qc /\ trace w' = trace w ++ [CallSpecificMutate qc index] /\
    entropy w' = entropy w /\
    exists c k old d,
      heap w !! qc = Some c /\ py_index (data c) index = Some k /\
      data c !! k = Some old /\ In d pool /\ accepts index old d = true /\
      heap w' =
        (let g := instantiate d index in
         if (num_qubits g =? 1)%nat || (num_qubits g =? 2)%nat
         then overwrite qc c k (rebind g old) (heap w) else heap w)).
  { intros w3 (H1 & H2 & H3) [= <- <-]. repeat split; try assumption.
    exists c, k, old, d. auto 10. }
  destruct (num_qubits g =? 1)%nat eqn:E1.
  - unfold bind at 1 in Hrun.
    destruct (getitem TargetQubit (qubits old) 0 w2) as [[q0| |] w3] eqn:Hq; try discriminate.
    apply (getitem_nat _ _ 0%nat) in Hq as [-> Hq].
    unfold bind at 1 in Hrun.
    destruct (data_setitem qc index _ w2) as [[u| |] w3] eqn:Hs; try discriminate.
    apply (Hfin w3); [|exact Hrun]. simpl. eapply Hdone; [exact Hs|].
    apply Nat.eqb_eq in E1. rewrite E1.
    destruct (qubits old); simplify_eq/=; reflexivity.
  - destruct (num_qubits g =? 2)%nat eqn:E2.
    + unfold bind at 1 in Hrun.
      match type of Hrun with
      | context [match ?m w2 with _ => _ end] =>
          destruct (m w2) as [[rebound| |] w3] eqn:Hq; try discriminate
      end.
      apply (rebound_qubits g) in Hq as [-> ->].
      unfold bind at 1 in Hrun.
      destruct (data_setitem qc index _ w2) as [[u| |] w3] eqn:Hs; try discriminate.
      apply (Hfin w3); [|exact Hrun]. simpl. eapply Hdone; [exact Hs|].
      apply Nat.eqb_eq in E2. rewrite E2. reflexivity.
    + apply (Hfin w2); [|exact Hrun]. simpl. rewrite Ht, He, Hh. auto.
Qed.

(** C1: whenever [specific_mutate] returns, the position it was asked to
    mutate exists before and after the call, and the operation found there
    afterwards has the qubit arity of the operation that was there before. *)
Theorem specific_mutate_preserves_arity fuel qc pool index w r w' :
  specific_mutate fuel qc pool index w = (Return r, w') ->
  exists old new,
    item_at w qc index = Some old /\
    item_at w' qc index = Some new /\
    num_qubits (operation new) = num_qubits (operation old).
Proof.
  intros Hrun.
  apply specific_mutate_Return in Hrun
    as (_ & _ & _ & c & k & old & d & Hc & Hk & Hx & _ & Hacc & Hheap).
  assert (Hold : item_at w qc index = Some old).
  { apply item_at_Some. eauto. }
  exists old. simpl in Hheap. unfold accepts in Hacc. apply Nat.eqb_eq in Hacc.
  destruct ((num_qubits (instantiate d index) =? 1)%nat
            || (num_qubits (instantiate d index) =? 2)%nat).
  - exists (rebind (instantiate d index) old). split; [exact Hold|]. split; [|exact Hacc].
    pose proof (item_at_setitem w qc index c k (rebind (instantiate d index) old) Hc Hk) as Hi.
    rewrite <- Hi. apply item_at_same_heap. exact Hheap.
  - exists old. split; [exact Hold|]. split; [|reflexivity].
    rewrite <- Hold. apply item_at_same_heap. exact Hheap.
Qed.

(** X18: what the call does for the arities the code handles: an accepted
    gate of arity 1 or 2 replaces the placement, bound to the leading target
    qubits and to no classical bit. *)
Lemma specific_mutate_overwrites_small_arity fuel qc pool index w r w' old :
  specific_mutate fuel qc pool index w = (Return r, w') ->
  item_at w qc index = Some old ->
  num_qubits (operation old) = 1%nat \/ num_qubits (operation old) = 2%nat ->
  exists d,
    In d pool /\ accepts index old d = true /\
    item_at w' qc index = Some (rebind (instantiate d index) old).
Proof.
  intros Hrun Hold Har.
  apply specific_mutate_Return in Hrun
    as (_ & _ & _ & c & k & old' & d & Hc & Hk & Hx & Hin & Hacc & Hheap).
  assert (old' = old) as ->.
  { apply item_at_Some in Hold as (c' & k' & Hc' & Hk' & Hx'). congruence. }
  exists d. split; [exact Hin|]. split; [exact Hacc|].
  unfold accepts in Hacc. apply Nat.eqb_eq in Hacc. simpl in Hheap.
  assert (Hsmall : (num_qubits (instantiate d index) =? 1)%nat
                   || (num_qubits (instantiate d index) =? 2)%nat = true).
  { rewrite Hacc. destruct Har as [-> | ->]; reflexivity. }
  rewrite Hsmall in Hheap.
  rewrite <- (item_at_setitem w qc index c k _ Hc Hk).
  apply item_at_same_heap. exact Hheap.
Qed.

(** What the call does for every other arity: the accepted gate is dropped
    and the circuit is returned as it was. *)
Lemma specific_mutate_keeps_other_arity fuel qc pool index w r w' old :
  specific_mutate fuel qc pool index w = (Return r, w') ->
  item_at w qc index = Some old ->
  num_qubits (operation old) <> 1%nat -> num_qubits (operation old) <> 2%nat ->
  heap w' = heap w.
Proof.
  intros Hrun Hold H1 H2.
  apply specific_mutate_Return in Hrun
    as (_ & _ & _ & c & k & old' & d & Hc & Hk & Hx & Hin & Hacc & Hheap).
  assert (old' = old) as ->.
  { apply item_at_Some in Hold as (c' & k' & Hc' & Hk' & Hx'). congruence. }
  unfold accepts in Hacc. apply Nat.eqb_eq in Hacc. simpl in Hheap.
  rewrite Hacc in Hheap.
  apply Nat.eqb_neq in H1, H2. rewrite H1, H2 in Hheap. exact Hheap.
Qed.

(** C2, on a Toffoli gate and a pool offering cswap: the draw is accepted
    (cswap has the arity of ccx), the call returns, and position 0 still
    holds the ccx gate: the accepted three-qubit gate was not written. *)
Lemma specific_mutate_three_qubit_gate_not_written :
  let w := Samples.world_of Samples.toffoli (Samples.counting 0) in
  let old := Samples.place "ccx" [0%nat; 1%nat; 2%nat] in
  let run := specific_mutate 1 0%nat Samples.pool3 0 w in
  item_at w 0%nat 0 = Some old /\
  chosen Samples.pool3 (entropy w (cursor w)) = Some (Samples.gate "cswap" 3) /\
  accepts 0 old (Samples.gate "cswap" 3) = true /\
  run.1 = Return 0%nat /\
  item_at run.2 0%nat 0 = Some old /\
  item_at run.2 0%nat 0 <> Some (rebind (instantiate (Samples.gate "cswap" 3) 0) old).
Proof.
  repeat split; try reflexivity. vm_compute. discriminate.
Qed.

(** The loop spins for as long as no drawn descriptor matches. *)
Lemma redraw_spins qc pool index old :
  pool <> [] ->
  (forall d, In d pool -> accepts index old d = false) ->
  forall fuel w,
    item_at w qc index = Some old ->
    redraw fuel qc pool index w = (OutOfFuel, skip_draws fuel w).
Proof.
  intros Hne Hno. induction fuel as [|fuel IH]; intros w Hold; simpl.
  - unfold out_of_fuel. rewrite skip_draws_0. reflexivity.
  - unfold bind at 1. rewrite random_choice_spec.
    destruct (chosen_nonempty pool (entropy w (cursor w)) Hne) as [d Hd]. rewrite Hd.
    unfold bind at 1. rewrite data_getitem_item_at.
    rewrite (item_at_same_heap w (skip_draws 1 w)) by reflexivity.
    change (heap (skip_draws 1 w)) with (heap w).
    apply item_at_Some in Hold as Hex. destruct Hex as (c & k & Hc & _). rewrite Hc, Hold.
    pose proof (Hno d (chosen_In _ _ _ Hd)) as Hrej. unfold accepts in Hrej. rewrite Hrej.
    rewrite IH by (rewrite (item_at_same_heap w (skip_draws 1 w)) by reflexivity; exact Hold).
    rewrite skip_draws_add. reflexivity.
Qed.

(** C8, amended: at a valid position and with a non-empty pool, if no
    descriptor of the pool matches the arity found there, [specific_mutate]
    is still drawing after any number of iterations, whatever the random
    source: it never returns and never raises, and the circuit stays as it
    was; and a call that does return proves that the pool holds a descriptor
    of that arity. *)
Theorem specific_mutate_spins_without_match qc pool index w old :
  item_at w qc index = Some old ->
  pool <> [] ->
  ((forall d, In d pool -> accepts index old d = false) ->
   forall fuel, exists w',
     specific_mutate fuel qc pool index w = (OutOfFuel, w') /\
     heap w' = heap w /\ cursor w' = (cursor w + fuel)%nat) /\
  (forall fuel r w',
     specific_mutate fuel qc pool index w = (Return r, w') ->
     exists d, In d pool /\ accepts index old d = true).
Proof.
  intros Hold Hne. split.
  - intros Hno fuel. unfold specific_mutate. rewrite bind_record.
    unfold bind at 1.
    rewrite (redraw_spins qc pool index old Hne Hno) by exact Hold.
    eexists. split; [reflexivity|]. split; reflexivity.
  - intros fuel r w' Hrun.
    apply specific_mutate_Return in Hrun
      as (_ & _ & _ & c & k & old' & d & Hc & Hk & Hx & Hin & Hacc & _).
    assert (old' = old) as ->.
    { apply item_at_Some in Hold as (c' & k' & Hc' & Hk' & Hx'). congruence. }
    exists d. auto.
Qed.

(** C8, as stated, fails on the empty pool: no descriptor matches, yet the
    first [random.choice] raises and the call ends. *)
Lemma specific_mutate_empty_pool_raises :
  let w := Samples.world_of Samples.ladder (Samples.counting 0) in
  let old := Samples.place "h" [0%nat] in
  item_at w 0%nat 0 = Some old /\
  (forall d, In d [] -> accepts 0 old d = false) /\
  (specific_mutate 1 0%nat [] 0 w).1 = Raise (IndexError EmptyChoice) /\
  (specific_mutate 1 0%nat [] 0 w).1 <> OutOfFuel.
Proof.
  repeat split; try reflexivity.
  - intros d [].
  - vm_compute. discriminate.
Qed.

(** C9: at an index at or beyond the gate count the first pass through the
    loop raises [IndexError] to the caller: nothing catches it, no further
    draw is made, the circuit is untouched, and unless the pool is empty the
    error is that of [qc.data[index]]. *)
Theorem specific_mutate_out_of_range fuel qc pool index w c :
  heap w !! qc = Some c ->
  Z.of_nat (length (data c)) <= index ->
  exists site w',
    specific_mutate (S fuel) qc pool index w = (Raise (IndexError site), w') /\
    heap w' = heap w /\
    (cursor w' <= cursor w + 1)%nat /\
    (pool <> [] -> site = CircuitPosition).
Proof.
  intros Hc Hge. unfold specific_mutate. rewrite bind_record.
  unfold bind at 1. simpl. unfold bind at 1. rewrite random_choice_spec. simpl.
  destruct (chosen pool (entropy w (cursor w))) as [d|] eqn:Hd.
  - unfold bind at 1. rewrite data_getitem_item_at. simpl. rewrite Hc.
    unfold item_at. simpl. rewrite Hc, (py_index_ge _ _ Hge).
    exists CircuitPosition. eexists. split; [reflexivity|]. split; [reflexivity|].
    split; [simpl; lia | auto].
  - exists EmptyChoice. eexists. split; [reflexivity|]. split; [reflexivity|].
    split; [simpl; lia|].
    intros Hne. destruct (chosen_nonempty pool (entropy w (cursor w)) Hne) as [d Hd'].
    congruence.
Qed.

(** ** The Bitflip Mutator *)

Lemma random_random_spec (w : world) :
  random_random w = (Return (unit_interval (entropy w (cursor w))), skip_draws 1 w).
Proof.
  unfold random_random, bind, draw, ret, skip_draws. simpl.
  repeat f_equal. lia.
Qed.

Lemma unit_interval_bounds (raw : N) :
  (0 <= unit_interval raw)%Q /\ (unit_interval raw < 1)%Q.
Proof.
  unfold unit_interval, Qle, Qlt. simpl.
  assert (H : 0 < 2 ^ 53) by reflexivity.
  pose proof (Z.mod_pos_bound (Z.of_N raw) (2 ^ 53) H) as [Hlo Hhi].
  split; [lia|].
  change (Z.pos (2 ^ 53)%positive) with (2 ^ 53). lia.
Qed.

(** [random.random() < 0] never holds. *)
Lemma float_lt_zero (raw : N) : float_lt (unit_interval raw) 0 = false.
Proof.
  unfold float_lt. apply negb_false_iff, Qle_bool_iff, unit_interval_bounds.
Qed.


(** With probability 0 no turn of the loop does anything but draw. *)
Lemma bitflip_pass_prob_zero (mutate : loc -> Z -> M loc) (xs : list nat) :
  forall qc w,
    for_each xs (bitflip_step mutate 0) qc w = (Return qc, skip_draws (length xs) w).
Proof.
  induction xs as [|x xs IH]; intros qc w; simpl.
  - unfold ret. rewrite skip_draws_0. reflexivity.
  - unfold bind at 1. unfold bitflip_step at 1. unfold bind at 1.
    rewrite random_random_spec, float_lt_zero. unfold ret at 1.
    rewrite IH, skip_draws_add. reflexivity.
Qed.

(** C6: with probability 0 the function made by [bitflip_mutate] returns the
    reference it was given; the heap (so every gate, arity and qubit
    binding) and the trace (so no Site Mutator call) are as before, and only
    one random draw per position has been consumed. *)
Theorem bitflip_mutate_prob_zero_identity pool fuel qc w c :
  heap w !! qc = Some c ->
  exists w',
    bitflip_mutate pool 0 fuel qc w = (Return qc, w') /\
    heap w' = heap w /\ trace w' = trace w /\
    cursor w' = (cursor w + length (data c))%nat.
Proof.
  intros Hc. unfold bitflip_mutate, num_gates_of. unfold bind at 1. unfold bind at 1.
  unfold load. rewrite Hc. unfold ret at 1.
  rewrite bitflip_pass_prob_zero, length_seq.
  eexists. split; [reflexivity|]. repeat split.
Qed.

(** Whatever its outcome, a call of [specific_mutate] adds its own entry to
    the trace and nothing else. *)
Lemma specific_mutate_trace fuel qc pool index w :
  trace (specific_mutate fuel qc pool index w).2 = trace w ++ [CallSpecificMutate qc index].
Proof.
  unfold specific_mutate. unfold bind at 1. simpl.
  set (w1 := mkWorld _ _ _ _).
  change (trace w ++ [CallSpecificMutate qc index]) with (trace w1).
  generalize w1. clear w1. change (preserves trace
    (let* gate := redraw fuel qc pool index in
     let* old := data_getitem qc index in
     if (num_qubits gate =? 1)%nat
     then
       let* q0 := getitem TargetQubit (qubits old) 0 in
       let* _ := data_setitem qc index (mkCircuitInstruction gate [q0] []) in
       ret qc
     else
       if (num_qubits gate =? 2)%nat
       then
         let* rebound :=
           (if (1 <? length (qubits old))%nat
            then
              let* q0 := getitem TargetQubit (qubits old) 0 in
              let* q1 := getitem TargetQubit (qubits old) 1 in
              ret [q0; q1]
            else
              let* q0 := getitem TargetQubit (qubits old) 0 in
              ret [q0]) in
         let* _ := data_setitem qc index (mkCircuitInstruction gate rebound []) in
         ret qc
       else ret qc)).
  apply preserves_bind; [apply preserves_trace_redraw | intros g].
  apply preserves_bind; [apply preserves_data_getitem | intros old].
  destruct (num_qubits g =? 1)%nat; [|destruct (num_qubits g =? 2)%nat];
    [| |apply preserves_ret].
  - apply preserves_bind; [apply preserves_getitem | intros q0].
    apply preserves_bind; [apply preserves_trace_data_setitem | intros u].
    apply preserves_ret.
  - apply preserves_bind.
    + destruct (1 <? length (qubits old))%nat.
      * apply preserves_bind; [apply preserves_getitem | intros q0].
        apply preserves_bind; [apply preserves_getitem | intros q1].
        apply preserves_ret.
      * apply preserves_bind; [apply preserves_getitem | intros q0].
        apply preserves_ret.
    + intros rebound.
      apply preserves_bind; [apply preserves_trace_data_setitem | intros u].
      apply preserves_ret.
Qed.


(** ** The constrained Site Mutator *)

Lemma count_rotational_cons (x : CircuitInstruction) (l : list CircuitInstruction) :
  count_rotational (x :: l) =
    ((if is_rotational (operation x) then 1 else 0) + count_rotational l)%nat.
Proof.
  unfold count_rotational. simpl. destruct (is_rotational (operation x)); reflexivity.
Qed.

(** Overwriting a placement by a rotation gate, or a placement that is no
    rotation gate by anything, does not lower the count. *)
Lemma count_rotational_insert (l : list CircuitInstruction) (k : nat) old new :
  l !! k = Some old ->
  is_rotational (operation new) = true \/ is_rotational (operation old) = false ->
  (count_rotational l <= count_rotational (<[k := new]> l))%nat.
Proof.
  revert k. induction l as [|x l IH]; intros k Hk Hok; [discriminate|].
  destruct k as [|k]; simpl in *.
  - injection Hk as ->. rewrite !count_rotational_cons.
    destruct (is_rotational (operation new)), (is_rotational (operation old));
      destruct Hok; try discriminate; lia.
  - rewrite !count_rotational_cons. specialize (IH k Hk Hok). lia.
Qed.

Lemma preserves_heap_redraw_testing fuel qc pool index cur n Q :
  preserves heap (redraw_testing fuel qc pool index cur n Q).
Proof.
  induction fuel as [|fuel IH]; simpl; [apply preserves_out_of_fuel|].
  apply preserves_bind; [apply preserves_heap_random_choice | intros d].
  apply preserves_bind; [apply preserves_data_getitem | intros old].
  destruct (_ =? _)%nat; [|exact IH].
  destruct (_ || _); [apply preserves_ret | exact IH].
Qed.

(** The acceptance test of lines 121-126: a gate leaves the loop only with
    the arity of the placement it replaces, and only if it is a rotation
    gate, or the placement it replaces is none and the count taken at entry
    is at least the number of qubits. *)
Lemma redraw_testing_Return fuel qc pool index cur n Q w g w' :
  redraw_testing fuel qc pool index cur n Q w = (Return g, w') ->
  exists old d,
    item_at w qc index = Some old /\ In d pool /\ g = instantiate d index /\
    accepts index old d = true /\
    (is_rotational g = true \/ (cur = false /\ Q <= Z.of_nat n)).
Proof.
  revert w. induction fuel as [|fuel IH]; intros w Hrun; simpl in Hrun; [discriminate|].
  unfold bind at 1 in Hrun. rewrite random_choice_spec in Hrun.
  destruct (chosen pool (entropy w (cursor w))) as [d|] eqn:Hd; [|discriminate].
  unfold bind at 1 in Hrun. rewrite data_getitem_item_at in Hrun.
  change (heap (skip_draws 1 w)) with (heap w) in Hrun.
  destruct (heap w !! qc) as [c|] eqn:Hc; [|discriminate].
  rewrite (item_at_same_heap w (skip_draws 1 w)) in Hrun by reflexivity.
  destruct (item_at w qc index) as [old|] eqn:Hold; [|discriminate].
  assert (Hnext : redraw_testing fuel qc pool index cur n Q (skip_draws 1 w) = (Return g, w') ->
    exists old' d',
      Some old = Some old' /\ In d' pool /\ g = instantiate d' index /\
      accepts index old' d' = true /\
      (is_rotational g = true \/ (cur = false /\ Q <= Z.of_nat n))).
  { intros Hrec. apply IH in Hrec as (old' & d' & Ho & Hrest).
    rewrite (item_at_same_heap w (skip_draws 1 w)) in Ho by reflexivity.
    exists old', d'. split; [congruence | exact Hrest]. }
  destruct (num_qubits (instantiate d index) =? num_qubits (operation old))%nat eqn:Hacc;
    [|exact (Hnext Hrun)].
  destruct (is_rotational (instantiate d index)
            || negb cur && (Q <=? Z.of_nat n)) eqn:Hfloor; [|exact (Hnext Hrun)].
  injection Hrun as <- <-. exists old, d. split; [reflexivity|].
  split; [eauto using chosen_In|]. split; [reflexivity|]. split; [exact Hacc|].
  apply orb_true_iff in Hfloor as [Hrot | Hrest]; [left; exact Hrot | right].
  apply andb_true_iff in Hrest as [Hcur Hq].
  split; [apply negb_true_iff; exact Hcur | apply Z.leb_le; exact Hq].
Qed.

(** Whatever its outcome, a call of [specific_mutate_testing] either leaves
    the heap alone or has overwritten the one placement with an accepted
    gate; a call that returns hands back the reference it was given. *)
Lemma specific_mutate_testing_effect fuel qc pool index Q w o w' :
  specific_mutate_testing fuel qc pool index Q w = (o, w') ->
  (forall r, o = Return r -> r = qc) /\
  (heap w' = heap w \/
   exists c k old g,
     heap w !! qc = Some c /\ py_index (data c) index = Some k /\
     data c !! k = Some old /\
     num_qubits g = num_qubits (operation old) /\
     (is_rotational g = true \/
      (is_rotational (operation old) = false /\ Q <= Z.of_nat (count_rotational (data c)))) /\
     heap w' = overwrite qc c k (mkCircuitInstruction g (qubits old) []) (heap w)).
Proof.
  intros Hrun. unfold specific_mutate_testing in Hrun.
  rewrite bind_record in Hrun.
  remember (mkWorld (heap w) (entropy w) (cursor w) (trace w ++ _)) as w1 eqn:Hw1.
  assert (Hh1 : heap w1 = heap w) by (rewrite Hw1; reflexivity).
  clear Hw1.
  unfold bind at 1 in Hrun. unfold load at 1 in Hrun. rewrite Hh1 in Hrun.
  destruct (heap w !! qc) as [c|] eqn:Hc.
  2: { injection Hrun as <- <-. split; [intros r [=] | left; exact Hh1]. }
  unfold bind at 1 in Hrun. rewrite data_getitem_item_at, Hh1, Hc in Hrun.
  rewrite (item_at_same_heap w w1 qc index Hh1) in Hrun.
  destruct (item_at w qc index) as [current|] eqn:Hcur.
  2: { injection Hrun as <- <-. split; [intros r [=] | left; exact Hh1]. }
  unfold bind at 1 in Hrun.
  pose proof (preserves_heap_redraw_testing fuel qc pool index
                (is_rotational (operation current)) (count_rotational (data c)) Q w1) as Hh2.
  destruct (redraw_testing fuel qc pool index (is_rotational (operation current))
              (count_rotational (data c)) Q w1) as [[g| |] w2] eqn:Hloop; simpl in Hh2.
  2, 3: injection Hrun as <- <-; (split; [intros r [=] | left; congruence]).
  apply redraw_testing_Return in Hloop as (old & d & Hold & _ & Hg & Hacc & Hfloor).
  rewrite (item_at_same_heap w w1 qc index Hh1), Hcur in Hold. injection Hold as <-.
  unfold bind at 1 in Hrun. rewrite data_getitem_item_at in Hrun.
  rewrite (item_at_same_heap w w2 qc index) in Hrun by congruence.
  rewrite Hh2, Hh1, Hc, Hcur in Hrun.
  apply item_at_Some in Hcur as (c' & k & Hc' & Hk & Hx).
  rewrite Hc in Hc'. injection Hc' as <-.
  unfold bind at 1 in Hrun. unfold data_setitem in Hrun. unfold bind at 1 in Hrun.
  unfold load at 1 in Hrun. rewrite Hh2, Hh1, Hc, Hk in Hrun.
  unfold ret in Hrun. injection Hrun as <- <-.
  split.
  { intros r Hr. injection Hr as <-. reflexivity. }
  right. exists c, k, current, g.
  split; [reflexivity|]. split; [exact Hk|]. split; [exact Hx|].
  split; [|split; [exact Hfloor|]].
  - unfold accepts in Hacc. apply Nat.eqb_eq in Hacc. rewrite Hg. exact Hacc.
  - simpl. rewrite Hh2, Hh1. reflexivity.
Qed.

Lemma specific_mutate_testing_rotations fuel qc pool index Q w o w' n :
  specific_mutate_testing fuel qc pool index Q w = (o, w') ->
  rotations_at w qc = Some n ->
  (forall r, o = Return r -> r = qc) /\
  exists n', rotations_at w' qc = Some n' /\ (n <= n')%nat.
Proof.
  intros Hrun Hn. apply specific_mutate_testing_effect in Hrun as [Hret Heff].
  split; [exact Hret|].
  destruct Heff as [Hsame | (c & k & old & g & Hc & Hk & Hx & _ & Hok & Hheap)].
  - exists n. split; [|lia]. unfold rotations_at in *. rewrite Hsame. exact Hn.
  - unfold rotations_at in *. rewrite Hc in Hn. injection Hn as <-.
    rewrite Hheap. unfold overwrite.
    rewrite list_lookup_insert_eq by (eapply lookup_lt_Some; exact Hc).
    eexists. split; [reflexivity|]. simpl.
    apply (count_rotational_insert _ _ old); [exact Hx|].
    simpl. destruct Hok as [Hrot | [Hnot _]]; auto.
Qed.

(** C3: along any run of constrained mutations of a circuit, made with
    qubit count Q, the number of rotation gates never decreases; so once it
    is at least Q it is at least Q after the run, however the run ends
    (every prefix of a run is a run, so the floor holds between any two
    calls as well). *)
Theorem rotation_floor_is_kept steps Q qc w n :
  rotations_at w qc = Some n ->
  Q <= Z.of_nat n ->
  exists n',
    rotations_at (mutate_many steps Q qc w).2 qc = Some n' /\
    (n <= n')%nat /\ Q <= Z.of_nat n'.
Proof.
  revert w n. induction steps as [|[[fuel pool] index] steps IH]; intros w n Hn HQ; simpl.
  - exists n. split; [exact Hn|]. split; [lia | exact HQ].
  - unfold bind.
    destruct (specific_mutate_testing fuel qc pool index Q w) as [o w1] eqn:Hcall.
    destruct (specific_mutate_testing_rotations _ _ _ _ _ _ _ _ _ Hcall Hn)
      as [Hret (n1 & Hn1 & Hle)].
    destruct o as [r| |]; simpl.
    + rewrite (Hret r eq_refl).
      destruct (IH w1 n1 Hn1 ltac:(lia)) as (n' & Hn' & Hle' & HQ').
      exists n'. split; [exact Hn'|]. split; lia.
    + exists n1. split; [exact Hn1|]. split; lia.
    + exists n1. split; [exact Hn1|]. split; lia.
Qed.

(** ** The by-depth normalizer *)

Lemma by_depth_unfold {D : Dividers} (target : Z) (qc : loc) (w : world) :
  by_depth target qc w =
    match heap w !! qc with
    | None => (Raise NoSuchObject, w)
    | Some c =>
        if Z.of_nat (depth c) <=? target then (Return qc, w)
        else (let* (qc1, _rest) := divider_by_depth target qc in ret qc1)
               (mkWorld (heap w) (entropy w) (cursor w) (trace w ++ [CallDivider target qc]))
    end.
Proof.
  unfold by_depth, depth_of. unfold bind at 1. unfold bind at 1. unfold load.
  destruct (heap w !! qc) as [c|]; [|reflexivity].
  unfold ret at 1. destruct (Z.of_nat (depth c) <=? target); reflexivity.
Qed.

(** C10: on a circuit whose depth is at most the target, the function made
    by [by_depth] hands back the very reference it was given and leaves the
    world as it was, so the divider was not called; on a deeper circuit it
    calls the divider once and hands back the first part. *)
Theorem by_depth_within_target {D : Dividers} (target : Z) (qc : loc) (w : world) c :
  heap w !! qc = Some c ->
  (Z.of_nat (depth c) <= target -> by_depth target qc w = (Return qc, w)) /\
  (target < Z.of_nat (depth c) ->
   by_depth target qc w =
     (let* (qc1, _rest) := divider_by_depth target qc in ret qc1)
       (mkWorld (heap w) (entropy w) (cursor w) (trace w ++ [CallDivider target qc]))).
Proof.
  intros Hc. rewrite by_depth_unfold, Hc.
  split; intros Hd.
  - apply Z.leb_le in Hd. rewrite Hd. reflexivity.
  - apply Z.leb_gt in Hd. rewrite Hd. reflexivity.
Qed.

(** ** The Layerflip Mutator *)

Lemma layerflip_pass_prob_zero {D : Dividers} {U : Utilities} (sd : nat) (xs : list nat) :
  forall qc w,
    for_each xs (layerflip_step 0 sd) qc w = (Return qc, skip_draws (length xs) w).
Proof.
  induction xs as [|x xs IH]; intros qc w; simpl.
  - unfold ret. rewrite skip_draws_0. reflexivity.
  - unfold bind at 1. unfold layerflip_step at 1. unfold bind at 1.
    rewrite random_random_spec, float_lt_zero. unfold ret at 1.
    rewrite IH, skip_draws_add. reflexivity.
Qed.

(** C7: with probability 0, whatever the collaborators are,
    [layerflip_mutate] returns the reference it was given; the heap and the
    trace are as before (no divide, generate, compose or truncate call was
    made), and one random draw per layer has been consumed. *)
Theorem layerflip_mutate_prob_zero_identity {D : Dividers} {U : Utilities} qc w c :
  heap w !! qc = Some c ->
  exists w',
    layerflip_mutate qc 0 w = (Return qc, w') /\
    heap w' = heap w /\ trace w' = trace w /\
    cursor w' = (cursor w + depth c)%nat.
Proof.
  intros Hc. unfold layerflip_mutate, depth_of. unfold bind at 1. unfold bind at 1.
  unfold load. rewrite Hc. unfold ret at 1.
  rewrite layerflip_pass_prob_zero, length_seq.
  eexists. split; [reflexivity|]. repeat split.
Qed.

(** ** The Layerflip Mutator over the collaborators of the specification *)











(** ** Termination of the redraw loop *)

(** If the draws reject [n] times and then hit a matching descriptor, any
    fuel above [n] lets the loop return the gate of that descriptor. *)
Lemma redraw_returns qc pool index old d :
  accepts index old d = true ->
  forall n fuel w,
    item_at w qc index = Some old ->
    (forall i, (i < n)%nat ->
       exists d', chosen pool (entropy w (cursor w + i)%nat) = Some d' /\
                  accepts index old d' = false) ->
    chosen pool (entropy w (cursor w + n)%nat) = Some d ->
    (n < fuel)%nat ->
    redraw fuel qc pool index w = (Return (instantiate d index), skip_draws (S n) w).
Proof.
  intros Hacc. induction n as [|n IH]; intros fuel w Hold Hrej Hhit Hfuel;
    (destruct fuel as [|fuel]; [lia|]); simpl.
  - unfold bind at 1. rewrite random_choice_spec.
    rewrite Nat.add_0_r in Hhit. rewrite Hhit.
    unfold bind at 1. rewrite data_getitem_item_at.
    rewrite (item_at_same_heap w (skip_draws 1 w)) by reflexivity.
    change (heap (skip_draws 1 w)) with (heap w).
    apply item_at_Some in Hold as Hex. destruct Hex as (c & k & Hc & _). rewrite Hc, Hold.
    unfold accepts in Hacc. rewrite Hacc. reflexivity.
  - unfold bind at 1. rewrite random_choice_spec.
    destruct (Hrej 0%nat ltac:(lia)) as (d' & Hd' & Hno).
    rewrite Nat.add_0_r in Hd'. rewrite Hd'.
    unfold bind at 1. rewrite data_getitem_item_at.
    rewrite (item_at_same_heap w (skip_draws 1 w)) by reflexivity.
    change (heap (skip_draws 1 w)) with (heap w).
    apply item_at_Some in Hold as Hex. destruct Hex as (c & k & Hc & _). rewrite Hc, Hold.
    unfold accepts in Hno. rewrite Hno.
    rewrite (IH fuel (skip_draws 1 w)).
    + rewrite skip_draws_add. reflexivity.
    + rewrite (item_at_same_heap w (skip_draws 1 w)) by reflexivity. exact Hold.
    + intros i Hi. destruct (Hrej (S i) ltac:(lia)) as (d'' & Hd'' & Hno'').
      exists d''. split; [|exact Hno'']. simpl.
      replace (cursor w + 1 + i)%nat with (cursor w + S i)%nat by lia. exact Hd''.
    + simpl. replace (cursor w + 1 + n)%nat with (cursor w + S n)%nat by lia. exact Hhit.
    + lia.
Qed.

Lemma getitem_hit {A} site (l : list A) (k : nat) (x : A) (w : world) :
  l !! k = Some x -> getitem site l (Z.of_nat k) w = (Return x, w).
Proof.
  intros Hx. unfold getitem.
  rewrite py_index_nat by (eapply lookup_lt_Some; exact Hx). rewrite Hx. reflexivity.
Qed.


(** ** Runs on the sample circuits *)

(** C1 on the ladder circuit: the h gate at position 0 is replaced by rx, a
    gate on one qubit as well. *)
Lemma specific_mutate_preserves_arity_witness :
  let w := Samples.world_of Samples.ladder (Samples.counting 2) in
  let run := specific_mutate 5 0%nat Samples.pool12 0 w in
  run = (Return 0%nat, run.2) /\
  exists old new,
    item_at w 0%nat 0 = Some old /\
    item_at run.2 0%nat 0 = Some new /\
    num_qubits (operation new) = num_qubits (operation old).
Proof.
  intros w run.
  assert (Hrun : run = (Return 0%nat, run.2)) by (vm_compute; reflexivity).
  split; [exact Hrun|].
  exact (specific_mutate_preserves_arity 5 0%nat Samples.pool12 0 w 0%nat run.2 Hrun).
Defined.

(** C3 on the circuit rx; ry; cx over two qubits: two constrained mutations
    leave at least two rotation gates. *)
Lemma rotation_floor_is_kept_witness :
  let w := Samples.world_of Samples.rotations (Samples.counting 0) in
  let steps := [(5%nat, Samples.pool12, 0); (5%nat, Samples.pool12, 2)] in
  rotations_at w 0%nat = Some 2%nat /\
  2 <= Z.of_nat 2 /\
  exists n',
    rotations_at (mutate_many steps 2 0%nat w).2 0%nat = Some n' /\
    (2 <= n')%nat /\ 2 <= Z.of_nat n'.
Proof.
  intros w steps.
  assert (Hn : rotations_at w 0%nat = Some 2%nat) by reflexivity.
  assert (HQ : 2 <= Z.of_nat 2) by lia.
  split; [exact Hn|]. split; [exact HQ|].
  exact (rotation_floor_is_kept steps 2 0%nat w 2%nat Hn HQ).
Defined.


(** C6 on the ladder circuit. *)
Lemma bitflip_mutate_prob_zero_identity_witness :
  let w := Samples.world_of Samples.ladder (Samples.counting 0) in
  heap w !! 0%nat = Some Samples.ladder /\
  exists w',
    bitflip_mutate Samples.pool12 0 5 0%nat w = (Return 0%nat, w') /\
    heap w' = heap w /\ trace w' = trace w /\
    cursor w' = (cursor w + length (data Samples.ladder))%nat.
Proof.
  intros w.
  assert (Hc : heap w !! 0%nat = Some Samples.ladder) by reflexivity.
  split; [exact Hc|].
  exact (bitflip_mutate_prob_zero_identity Samples.pool12 5 0%nat w Samples.ladder Hc).
Defined.

(** C7 on the ladder circuit, over the collaborators of the specification. *)
Lemma layerflip_mutate_prob_zero_identity_witness :
  let w := Samples.world_of Samples.ladder (Samples.counting 0) in
  heap w !! 0%nat = Some Samples.ladder /\
  exists w',
    layerflip_mutate (D := SpecModel.spec_dividers)
      (U := SpecModel.spec_utilities Samples.hadamard_layers) 0%nat 0 w = (Return 0%nat, w') /\
    heap w' = heap w /\ trace w' = trace w /\
    cursor w' = (cursor w + SpecModel.spec_depth Samples.ladder)%nat.
Proof.
  intros w.
  assert (Hc : heap w !! 0%nat = Some Samples.ladder) by reflexivity.
  split; [exact Hc|].
  exact (layerflip_mutate_prob_zero_identity
           (D := SpecModel.spec_dividers)
           (U := SpecModel.spec_utilities Samples.hadamard_layers)
           0%nat w Samples.ladder Hc).
Defined.

(** C8, amended: a Toffoli gate and the pool of one- and two-qubit gates
    for the spinning loop, the ladder circuit for the returning call. *)
Lemma specific_mutate_spins_without_match_witness :
  let w := Samples.world_of Samples.toffoli (Samples.counting 0) in
  let old := Samples.place "ccx" [0%nat; 1%nat; 2%nat] in
  let v := Samples.world_of Samples.ladder (Samples.counting 2) in
  let run := specific_mutate 5 0%nat Samples.pool12 0 v in
  (item_at w 0%nat 0 = Some old /\
   Samples.pool12 <> [] /\
   (forall d, In d Samples.pool12 -> accepts 0 old d = false) /\
   forall fuel, exists w',
     specific_mutate fuel 0%nat Samples.pool12 0 w = (OutOfFuel, w') /\
     heap w' = heap w /\ cursor w' = (cursor w + fuel)%nat) /\
  (item_at v 0%nat 0 = Some (Samples.place "h" [0%nat]) /\
   run = (Return 0%nat, run.2) /\
   exists d, In d Samples.pool12 /\ accepts 0 (Samples.place "h" [0%nat]) d = true).
Proof.
  intros w old v run.
  assert (Hold : item_at w 0%nat 0 = Some old) by reflexivity.
  assert (Hne : Samples.pool12 <> []) by discriminate.
  assert (Hno : forall d, In d Samples.pool12 -> accepts 0 old d = false).
  { intros d Hd. simpl in Hd.
    destruct Hd as [<- | [<- | [<- | [<- | [<- | []]]]]]; reflexivity. }
  assert (Hv : item_at v 0%nat 0 = Some (Samples.place "h" [0%nat])) by reflexivity.
  assert (Hrun : run = (Return 0%nat, run.2)) by (vm_compute; reflexivity).
  split.
  - split; [exact Hold|]. split; [exact Hne|]. split; [exact Hno|].
    exact (proj1 (specific_mutate_spins_without_match 0%nat Samples.pool12 0 w old Hold Hne)
             Hno).
  - split; [exact Hv|]. split; [exact Hrun|].
    exact (proj2 (specific_mutate_spins_without_match 0%nat Samples.pool12 0 v
                    (Samples.place "h" [0%nat]) Hv Hne) 5%nat 0%nat run.2 Hrun).
Defined.

(** C9 on the ladder circuit, at the first index past its three gates. *)
Lemma specific_mutate_out_of_range_witness :
  let w := Samples.world_of Samples.ladder (Samples.counting 0) in
  heap w !! 0%nat = Some Samples.ladder /\
  Z.of_nat (length (data Samples.ladder)) <= 3 /\
  exists site w',
    specific_mutate 1 0%nat Samples.pool12 3 w = (Raise (IndexError site), w') /\
    heap w' = heap w /\
    (cursor w' <= cursor w + 1)%nat /\
    (Samples.pool12 <> [] -> site = CircuitPosition).
Proof.
  intros w.
  assert (Hc : heap w !! 0%nat = Some Samples.ladder) by reflexivity.
  assert (Hge : Z.of_nat (length (data Samples.ladder)) <= 3) by (simpl; lia).
  split; [exact Hc|]. split; [exact Hge|].
  exact (specific_mutate_out_of_range 0 0%nat Samples.pool12 3 w Samples.ladder Hc Hge).
Defined.

(** C10 on the ladder circuit of depth 3: target 3 hands the circuit back,
    target 2 goes through the divider. *)
Lemma by_depth_within_target_witness :
  let w := Samples.world_of Samples.ladder (Samples.counting 0) in
  let D := SpecModel.spec_dividers in
  heap w !! 0%nat = Some Samples.ladder /\
  (Z.of_nat (depth Samples.ladder) <= 3 /\ by_depth 3 0%nat w = (Return 0%nat, w)) /\
  (2 < Z.of_nat (depth Samples.ladder) /\
   by_depth 2 0%nat w =
     (let* (qc1, _rest) := divider_by_depth 2 0%nat in ret qc1)
       (mkWorld (heap w) (entropy w) (cursor w) (trace w ++ [CallDivider 2 0%nat]))).
Proof.
  intros w D.
  assert (Hc : heap w !! 0%nat = Some Samples.ladder) by reflexivity.
  assert (Hle : Z.of_nat (depth Samples.ladder) <= 3) by (vm_compute; discriminate).
  assert (Hgt : 2 < Z.of_nat (depth Samples.ladder)) by reflexivity.
  split; [exact Hc|]. split.
  - split; [exact Hle|].
    exact (proj1 (by_depth_within_target 3 0%nat w Samples.ladder Hc) Hle).
  - split; [exact Hgt|].
    exact (proj2 (by_depth_within_target 2 0%nat w Samples.ladder Hc) Hgt).
Defined.

(** ** Further facts: how computations compose *)

Lemma bind_assoc {A B C} (m : M A) (f : A -> M B) (g : B -> M C) (w : world) :
  bind (bind m f) g w = bind m (fun a => bind (f a) g) w.
Proof.
  unfold bind. destruct (m w) as [[a| |] w1]; reflexivity.
Qed.

Section Maintains.

Variable R : world -> world -> Prop.
Hypothesis R_refl : forall w, R w w.
Hypothesis R_trans : forall w1 w2 w3, R w1 w2 -> R w2 w3 -> R w1 w3.

Lemma maintains_ret {A} (a : A) : maintains R (ret a).
Proof. intros w. apply R_refl. Qed.

Lemma maintains_bind {A B} (m : M A) (k : A -> M B) :
  maintains R m -> (forall a, maintains R (k a)) -> maintains R (bind m k).
Proof.
  intros Hm Hk w. unfold bind. specialize (Hm w).
  destruct (m w) as [[a| |] w1]; simpl in *; try exact Hm.
  eapply R_trans; [exact Hm | apply Hk].
Qed.

Lemma maintains_for_each {A S} (xs : list A) (body : A -> S -> M S) :
  (forall x s, maintains R (body x s)) ->
  forall s, maintains R (for_each xs body s).
Proof.
  intros Hbody. induction xs as [|x xs IH]; intros s; simpl.
  - apply maintains_ret.
  - apply maintains_bind; [apply Hbody | exact IH].
Qed.

End Maintains.

Lemma preserves_heap_record (e : call) : preserves heap (record e).
Proof. intros w. reflexivity. Qed.

Lemma preserves_heap_random_random : preserves heap random_random.
Proof. intros w. reflexivity. Qed.

Lemma preserves_heap_redraw fuel qc pool index :
  preserves heap (redraw fuel qc pool index).
Proof.
  induction fuel as [|fuel IH]; simpl; [apply preserves_out_of_fuel|].
  apply preserves_bind; [apply preserves_heap_random_choice | intros d].
  apply preserves_bind; [apply preserves_data_getitem | intros old].
  destruct (_ =? _)%nat; [apply preserves_ret | exact IH].
Qed.

Lemma fails_cleanly_ret {A} (a : A) : fails_cleanly (ret a).
Proof. intros w o w' [= <- <-] Hno. destruct (Hno a eq_refl). Qed.

Lemma fails_cleanly_preserves {A} (m : M A) : preserves heap m -> fails_cleanly m.
Proof. intros Hm w o w' Hrun _. specialize (Hm w). rewrite Hrun in Hm. exact Hm. Qed.

Lemma fails_cleanly_bind {A B} (m : M A) (k : A -> M B) :
  preserves heap m -> (forall a, fails_cleanly (k a)) -> fails_cleanly (bind m k).
Proof.
  intros Hm Hk w o w' Hrun Hno. unfold bind in Hrun. specialize (Hm w).
  destruct (m w) as [[a| |] w1]; simpl in Hm.
  - rewrite <- Hm. exact (Hk a w1 o w' Hrun Hno).
  - injection Hrun as <- <-. exact Hm.
  - injection Hrun as <- <-. exact Hm.
Qed.

(** The assignment [qc.data[index] = item] either succeeds or raises
    without having written. *)
Lemma fails_cleanly_setitem_ret {A} qc index item (a : A) :
  fails_cleanly (let* _ := data_setitem qc index item in ret a).
Proof.
  intros w o w' Hrun Hno. unfold data_setitem, load, bind in Hrun.
  destruct (heap w !! qc) as [c|]; simpl in Hrun;
    [|injection Hrun as <- <-; reflexivity].
  destruct (py_index (data c) index) as [k|]; simpl in Hrun.
  - unfold ret in Hrun. injection Hrun as <- <-. destruct (Hno a eq_refl).
  - injection Hrun as <- <-. reflexivity.
Qed.

(** Lines 16-31 without the ghost entry: a run that does not return has
    written nothing. *)
Lemma specific_mutate_body_fails_cleanly fuel qc pool index :
  fails_cleanly
    (let* gate := redraw fuel qc pool index in
     let* old := data_getitem qc index in
     if (num_qubits gate =? 1)%nat
     then
       let* q0 := getitem TargetQubit (qubits old) 0 in
       let* _ := data_setitem qc index (mkCircuitInstruction gate [q0] []) in
       ret qc
     else
       if (num_qubits gate =? 2)%nat
       then
         let* rebound :=
           (if (1 <? length (qubits old))%nat
            then
              let* q0 := getitem TargetQubit (qubits old) 0 in
              let* q1 := getitem TargetQubit (qubits old) 1 in
              ret [q0; q1]
            else
              let* q0 := getitem TargetQubit (qubits old) 0 in
              ret [q0]) in
         let* _ := data_setitem qc index (mkCircuitInstruction gate rebound []) in
         ret qc
       else ret qc).
Proof.
  apply fails_cleanly_bind; [apply preserves_heap_redraw | intros g].
  apply fails_cleanly_bind; [apply preserves_data_getitem | intros old].
  destruct (num_qubits g =? 1)%nat; [|destruct (num_qubits g =? 2)%nat].
  - apply fails_cleanly_bind; [apply preserves_getitem | intros q0].
    apply fails_cleanly_setitem_ret.
  - apply fails_cleanly_bind; [|intros qs; apply fails_cleanly_setitem_ret].
    destruct (1 <? _)%nat.
    + apply preserves_bind; [apply preserves_getitem | intros q0].
      apply preserves_bind; [apply preserves_getitem | intros q1]. apply preserves_ret.
    + apply preserves_bind; [apply preserves_getitem | intros q0]. apply preserves_ret.
  - apply fails_cleanly_ret.
Qed.

(** Whatever its outcome, a call of [specific_mutate] either leaves the heap
    alone or has overwritten the one placement with a gate of the same
    arity, bound to the leading target qubits and to no classical bit. *)
Lemma specific_mutate_effect fuel qc pool index w o w' :
  specific_mutate fuel qc pool index w = (o, w') ->
  heap w' = heap w \/
  exists c k old g,
    heap w !! qc = Some c /\ py_index (data c) index = Some k /\
    data c !! k = Some old /\
    num_qubits g = num_qubits (operation old) /\
    heap w' = overwrite qc c k (rebind g old) (heap w).
Proof.
  intros Hrun.
  assert (Hfail : (forall a, o <> Return a) -> heap w' = heap w).
  { intros Hno. unfold specific_mutate in Hrun. rewrite bind_record in Hrun.
    exact (specific_mutate_body_fails_cleanly fuel qc pool index _ o w' Hrun Hno). }
  destruct o as [r| |]; [|left; apply Hfail; discriminate..].
  apply specific_mutate_Return in Hrun
    as (_ & _ & _ & c & k & old & d & Hc & Hk & Hx & _ & Hacc & Hheap).
  simpl in Hheap. unfold accepts in Hacc. apply Nat.eqb_eq in Hacc.
  destruct ((num_qubits (instantiate d index) =? 1)%nat
            || (num_qubits (instantiate d index) =? 2)%nat); [right | left; exact Hheap].
  exists c, k, old, (instantiate d index).
  split; [exact Hc|]. split; [exact Hk|]. split; [exact Hx|]. split; [exact Hacc|].
  exact Hheap.
Qed.

(** ** What a mutation leaves in place *)

Lemma shape_overwrite (c : QuantumCircuit) (k : nat) (old new : CircuitInstruction) :
  data c !! k = Some old ->
  num_qubits (operation new) = num_qubits (operation old) ->
  shape (mkQuantumCircuit (<[k := new]> (data c)) (width c)) = shape c.
Proof.
  intros Hx Har. unfold shape. simpl. f_equal.
  rewrite list_fmap_insert. apply list_insert_id.
  rewrite list_lookup_fmap, Hx. simpl. rewrite Har. reflexivity.
Qed.

Lemma shapes_overwrite (h : list QuantumCircuit) qc c k old new :
  h !! qc = Some c -> data c !! k = Some old ->
  num_qubits (operation new) = num_qubits (operation old) ->
  map shape (overwrite qc c k new h) = map shape h.
Proof.
  intros Hc Hx Har. unfold overwrite.
  change (map shape) with (fmap (M := list) shape).
  rewrite list_fmap_insert. apply list_insert_id.
  unfold loc in Hc. rewrite list_lookup_fmap, Hc. simpl. f_equal.
  symmetry. exact (shape_overwrite c k old new Hx Har).
Qed.

Lemma shapes_kept_refl (w : world) : shapes_kept w w.
Proof. reflexivity. Qed.

Lemma shapes_kept_trans (w1 w2 w3 : world) :
  shapes_kept w1 w2 -> shapes_kept w2 w3 -> shapes_kept w1 w3.
Proof. unfold shapes_kept. congruence. Qed.

Lemma shapes_kept_same_heap {A} (m : M A) : preserves heap m -> maintains shapes_kept m.
Proof. intros Hm w. unfold shapes_kept. rewrite Hm. reflexivity. Qed.

Lemma specific_mutate_keeps_shapes fuel qc pool index :
  maintains shapes_kept (specific_mutate fuel qc pool index).
Proof.
  intros w. destruct (specific_mutate fuel qc pool index w) as [o w'] eqn:Hrun.
  apply specific_mutate_effect in Hrun
    as [Hsame | (c & k & old & g & Hc & _ & Hx & Har & Hheap)];
    unfold shapes_kept; simpl.
  - rewrite Hsame. reflexivity.
  - rewrite Hheap. exact (shapes_overwrite _ _ _ _ old (rebind g old) Hc Hx Har).
Qed.

(** X1: whatever its outcome, a call of [specific_mutate] changes nothing
    but the placement at the position it was asked to mutate: the circuit
    keeps its gate count, its arities and its number of qubits, every other
    position of it holds what it held, and every other object of the heap is
    as it was. *)
Theorem specific_mutate_only_touches_position fuel qc pool index w c :
  heap w !! qc = Some c ->
  let w' := (specific_mutate fuel qc pool index w).2 in
  exists c',
    heap w' !! qc = Some c' /\
    shape c' = shape c /\
    (forall k, py_index (data c) index <> Some k -> data c' !! k = data c !! k) /\
    (forall l, l <> qc -> heap w' !! l = heap w !! l).
Proof.
  intros Hc w'. subst w'.
  destruct (specific_mutate fuel qc pool index w) as [o w'] eqn:Hrun. simpl.
  apply specific_mutate_effect in Hrun
    as [Hsame | (c0 & k & old & g & Hc0 & Hk & Hx & Har & Hheap)].
  - exists c. rewrite Hsame. auto.
  - rewrite Hc in Hc0. injection Hc0 as <-. rewrite Hheap. unfold overwrite.
    eexists. split.
    + apply list_lookup_insert_eq. eapply lookup_lt_Some. exact Hc.
    + split; [exact (shape_overwrite c k old (rebind g old) Hx Har)|]. split.
      * intros k' Hk'. simpl. apply list_lookup_insert_ne. congruence.
      * intros l Hl. apply list_lookup_insert_ne. congruence.
Qed.

(** X2: whatever the probability and however the pass ends, the function
    made by [bitflip_mutate] leaves every circuit of the heap with the gate
    count, the per-position qubit arities and the number of qubits it had,
    and adds no object. *)
Theorem bitflip_mutate_keeps_shapes pool prob fuel qc w :
  map shape (heap (bitflip_mutate pool prob fuel qc w).2) = map shape (heap w).
Proof.
  revert w. change (maintains shapes_kept (bitflip_mutate pool prob fuel qc)).
  unfold bitflip_mutate.
  apply (maintains_bind _ shapes_kept_trans).
  - apply shapes_kept_same_heap. unfold num_gates_of.
    apply preserves_bind; [apply preserves_load | intros c; apply preserves_ret].
  - intros n. apply (maintains_for_each _ shapes_kept_refl shapes_kept_trans).
    intros index q. unfold bitflip_step.
    apply (maintains_bind _ shapes_kept_trans).
    + apply shapes_kept_same_heap, preserves_heap_random_random.
    + intros r. destruct (float_lt r prob).
      * apply specific_mutate_keeps_shapes.
      * apply (maintains_ret _ shapes_kept_refl).
Qed.

(** ** The bitflip pass at any probability *)

Lemma bitflip_pass_in_order pool fuel prob (xs : list nat) :
  forall qc w,
    exists ys,
      sublist ys xs /\
      trace (for_each xs
               (bitflip_step (fun qc index => specific_mutate fuel qc pool index) prob)
               qc w).2
        = trace w ++ map (fun i => CallSpecificMutate qc (Z.of_nat i)) ys.
Proof.
  induction xs as [|x xs IH]; intros qc w; simpl.
  - exists []. split; [constructor | rewrite app_nil_r; reflexivity].
  - unfold bind at 1. unfold bitflip_step at 1. unfold bind at 1.
    rewrite random_random_spec.
    destruct (float_lt _ prob).
    + pose proof (specific_mutate_trace fuel qc pool (Z.of_nat x) (skip_draws 1 w)) as Ht.
      pose proof (specific_mutate_Return fuel qc pool (Z.of_nat x) (skip_draws 1 w)) as Hr.
      destruct (specific_mutate fuel qc pool (Z.of_nat x) (skip_draws 1 w))
        as [[q| |] w1]; simpl in Ht.
      * destruct (Hr q w1 eq_refl) as [-> _].
        destruct (IH qc w1) as (ys & Hsub & Htr).
        exists (x :: ys). split; [constructor; exact Hsub|].
        rewrite Htr, Ht. simpl. rewrite <- app_assoc. reflexivity.
      * exists [x]. split; [constructor; apply sublist_nil_l | exact Ht].
      * exists [x]. split; [constructor; apply sublist_nil_l | exact Ht].
    + unfold ret at 1. destruct (IH qc (skip_draws 1 w)) as (ys & Hsub & Htr).
      exists ys. split; [constructor; exact Hsub | exact Htr].
Qed.

(** X3: at any probability, the positions on which the function made by
    [bitflip_mutate] calls the Site Mutator form a sublist of
    0, 1, ..., n-1 (n the gate count read at entry): increasing, each at
    most once, none beyond the end; and nothing else enters the trace. *)
Theorem bitflip_mutate_calls_in_order pool prob fuel qc w c :
  heap w !! qc = Some c ->
  exists ys,
    sublist ys (seq 0 (length (data c))) /\
    trace (bitflip_mutate pool prob fuel qc w).2
      = trace w ++ map (fun i => CallSpecificMutate qc (Z.of_nat i)) ys.
Proof.
  intros Hc.
  assert (Hrun : bitflip_mutate pool prob fuel qc w =
            for_each (seq 0 (length (data c)))
              (bitflip_step (fun qc index => specific_mutate fuel qc pool index) prob) qc w).
  { unfold bitflip_mutate, num_gates_of. unfold bind at 1. unfold bind at 1.
    unfold load. rewrite Hc. reflexivity. }
  rewrite Hrun. apply bitflip_pass_in_order.
Qed.

(** ** The Site Mutator at its edges *)

(** On an empty pool [specific_mutate] raises the [IndexError] of
    [random.choice] before it looks at the circuit: whatever the reference
    and the index, no draw is consumed and the heap is untouched. *)
Lemma specific_mutate_on_empty_pool fuel qc index w :
  specific_mutate (S fuel) qc [] index w =
    (Raise (IndexError EmptyChoice),
     mkWorld (heap w) (entropy w) (cursor w) (trace w ++ [CallSpecificMutate qc index])).
Proof. reflexivity. Qed.

Lemma bitflip_pass_empty_pool prob fuel (xs : list nat) :
  forall qc w o w',
    for_each xs (bitflip_step (fun qc index => specific_mutate (S fuel) qc [] index) prob) qc w
      = (o, w') ->
    heap w' = heap w /\
    (o = Return qc \/ o = Raise (IndexError EmptyChoice)).
Proof.
  induction xs as [|x xs IH]; intros qc w o w'; simpl.
  - intros [= <- <-]. auto.
  - unfold bind at 1. unfold bitflip_step at 1. unfold bind at 1.
    rewrite random_random_spec.
    destruct (float_lt _ prob).
    + rewrite specific_mutate_on_empty_pool. intros [= <- <-]. auto.
    + unfold ret at 1. intros Hrest. apply IH in Hrest as [Hh Ho]. auto.
Qed.

(** X5: with an empty pool the function made by [bitflip_mutate] modifies
    no circuit at any probability: either no position is selected and it
    returns the circuit it was given, or the first selected position raises
    the [IndexError] of [random.choice]. *)
Theorem bitflip_mutate_empty_pool prob fuel qc w c :
  heap w !! qc = Some c ->
  let run := bitflip_mutate [] prob (S fuel) qc w in
  heap run.2 = heap w /\
  (run.1 = Return qc \/ run.1 = Raise (IndexError EmptyChoice)).
Proof.
  intros Hc run.
  assert (Hrun : run = for_each (seq 0 (length (data c)))
            (bitflip_step (fun qc index => specific_mutate (S fuel) qc [] index) prob) qc w).
  { unfold run, bitflip_mutate, num_gates_of. unfold bind at 1. unfold bind at 1.
    unfold load. rewrite Hc. reflexivity. }
  destruct run as [o w']. symmetry in Hrun.
  exact (bitflip_pass_empty_pool prob fuel _ qc w o w' Hrun).
Qed.

(** X6: an index below [-len(qc.data)] is out of range as well: the first
    pass through the loop raises [IndexError], and the circuit is
    untouched. *)
Theorem specific_mutate_below_range fuel qc pool index w c :
  heap w !! qc = Some c ->
  index < - Z.of_nat (length (data c)) ->
  pool <> [] ->
  exists w',
    specific_mutate (S fuel) qc pool index w = (Raise (IndexError CircuitPosition), w') /\
    heap w' = heap w.
Proof.
  intros Hc Hlt Hne. unfold specific_mutate. rewrite bind_record.
  unfold bind at 1. simpl. unfold bind at 1. rewrite random_choice_spec. simpl.
  destruct (chosen_nonempty pool (entropy w (cursor w)) Hne) as [d Hd]. rewrite Hd.
  unfold bind at 1. rewrite data_getitem_item_at. simpl. rewrite Hc.
  unfold item_at. simpl. rewrite Hc.
  assert (Hnone : py_index (data c) index = None).
  { unfold py_index. repeat case_decide; try reflexivity; lia. }
  rewrite Hnone. eexists. split; reflexivity.
Qed.

(** X7: a negative index from [-len(qc.data)] to -1 counts from the end:
    a returning call has mutated position [len(qc.data) + index], and the
    arity found there is kept. *)
Theorem specific_mutate_negative_index fuel qc pool index w c r w' :
  heap w !! qc = Some c ->
  - Z.of_nat (length (data c)) <= index < 0 ->
  specific_mutate fuel qc pool index w = (Return r, w') ->
  let k := Z.to_nat (Z.of_nat (length (data c)) + index) in
  exists c' old new,
    heap w' !! qc = Some c' /\
    data c !! k = Some old /\ data c' !! k = Some new /\
    num_qubits (operation new) = num_qubits (operation old) /\
    (forall k', k' <> k -> data c' !! k' = data c !! k').
Proof.
  intros Hc Hneg Hrun k.
  assert (Hk : py_index (data c) index = Some k).
  { unfold py_index. repeat case_decide; try reflexivity; lia. }
  apply specific_mutate_effect in Hrun as Heff.
  apply specific_mutate_Return in Hrun
    as (_ & _ & _ & c0 & k0 & old & d & Hc0 & Hk0 & Hx & _ & _).
  rewrite Hc in Hc0. injection Hc0 as <-. rewrite Hk in Hk0. injection Hk0 as <-.
  destruct Heff as [Hsame | (c1 & k1 & old1 & g & Hc1 & Hk1 & Hx1 & Har & Hheap)].
  - exists c, old, old. rewrite Hsame. auto.
  - rewrite Hc in Hc1. injection Hc1 as <-. rewrite Hk in Hk1. injection Hk1 as <-.
    rewrite Hx in Hx1. injection Hx1 as <-.
    pose proof (lookup_lt_Some _ _ _ Hc) as Hqc.
    pose proof (lookup_lt_Some _ _ _ Hx) as Hlt.
    eexists. exists old. eexists. rewrite Hheap. unfold overwrite.
    split; [apply list_lookup_insert_eq; exact Hqc|]. split; [exact Hx|]. simpl.
    split; [apply list_lookup_insert_eq; exact Hlt|]. split; [exact Har|].
    intros k' Hk'. apply list_lookup_insert_ne. congruence.
Qed.

(** X8: the first matching draw wins.  At a well-formed placement (as many
    target qubits as the gate has), if the draws reject [n] times and the
    next one picks a descriptor of the arity found at the position whose
    gate takes no parameter, then with fuel above [n] the call returns the
    reference it was given after exactly [n + 1] draws, and the position
    holds that descriptor's gate on the target qubits when the arity is 1
    or 2, the old placement otherwise.  The two assumptions on the placement
    and on the gate are those under which the assignment of lines 28 and 30
    is a plain replacement of the list item. *)
Theorem specific_mutate_first_match qc pool index old d n fuel w :
  item_at w qc index = Some old ->
  length (qubits old) = num_qubits (operation old) ->
  params (instantiate d index) = [] ->
  accepts index old d = true ->
  (forall i, (i < n)%nat ->
     exists d', chosen pool (entropy w (cursor w + i)%nat) = Some d' /\
                accepts index old d' = false) ->
  chosen pool (entropy w (cursor w + n)%nat) = Some d ->
  (n < fuel)%nat ->
  exists w',
    specific_mutate fuel qc pool index w = (Return qc, w') /\
    cursor w' = (cursor w + S n)%nat /\
    item_at w' qc index =
      Some (let g := instantiate d index in
            if (num_qubits g =? 1)%nat || (num_qubits g =? 2)%nat
            then mkCircuitInstruction g (qubits old) [] else old).
Proof.
  intros Hold Hlen _ Hacc Hrej Hhit Hfuel. unfold specific_mutate. rewrite bind_record.
  set (w1 := mkWorld (heap w) (entropy w) (cursor w) (trace w ++ _)).
  unfold bind at 1.
  rewrite (redraw_returns qc pool index old d Hacc n fuel w1 Hold Hrej Hhit Hfuel).
  set (w2 := skip_draws (S n) w1).
  assert (Hh2 : heap w2 = heap w) by reflexivity.
  assert (Hold2 : item_at w2 qc index = Some old).
  { rewrite (item_at_same_heap w w2) by exact Hh2. exact Hold. }
  unfold bind at 1. rewrite data_getitem_item_at, Hold2.
  apply item_at_Some in Hold as Hex. destruct Hex as (c & k & Hc & Hk & Hx).
  rewrite Hh2, Hc. cbv zeta. set (g := instantiate d index).
  assert (Hset : forall item,
    data_setitem qc index item w2 =
      (Return tt, set_heap (overwrite qc c k item (heap w2)) w2)).
  { intros item. unfold data_setitem, bind, load. rewrite Hh2, Hc, Hk. reflexivity. }
  assert (Hitem : forall item,
    item_at (set_heap (overwrite qc c k item (heap w2)) w2) qc index = Some item).
  { intros item. apply (item_at_setitem w2 qc index c k item); [rewrite Hh2; exact Hc | exact Hk]. }
  assert (Har : num_qubits g = length (qubits old)).
  { unfold accepts in Hacc. apply Nat.eqb_eq in Hacc. rewrite Hlen. exact Hacc. }
  destruct (num_qubits g =? 1)%nat eqn:E1;
    [|destruct (num_qubits g =? 2)%nat eqn:E2]; simpl orb; cbv iota.
  - apply Nat.eqb_eq in E1. rewrite E1 in Har.
    destruct (qubits old) as [|q0 [|q1 qs]] eqn:Hq; simpl in Har; try discriminate.
    unfold bind at 1. rewrite (getitem_hit TargetQubit [q0] 0 q0 _ eq_refl).
    unfold bind at 1. rewrite Hset.
    eexists. split; [reflexivity|]. split; [simpl; lia|].
    rewrite Hitem. reflexivity.
  - apply Nat.eqb_eq in E2. rewrite E2 in Har.
    destruct (qubits old) as [|q0 [|q1 [|q2 qs]]] eqn:Hq; simpl in Har; try discriminate.
    cbn [length Nat.ltb Nat.leb].
    unfold bind at 1. unfold bind at 1.
    rewrite (getitem_hit TargetQubit [q0; q1] 0 q0 _ eq_refl).
    unfold bind at 1.
    rewrite (getitem_hit TargetQubit [q0; q1] 1 q1 _ eq_refl). unfold ret at 1.
    unfold bind at 1. rewrite Hset.
    eexists. split; [reflexivity|]. split; [simpl; lia|].
    rewrite Hitem. reflexivity.
  - eexists. split; [reflexivity|]. split; [simpl; lia | exact Hold2].
Qed.

(** ** The constrained Site Mutator at its edges *)

(** X9: the constrained variant reads [qc.data[index]] before its loop, so
    an index out of range on either side raises [IndexError] at once:
    whatever the fuel, the pool and the qubit count, no draw is consumed and
    the heap is untouched. *)
Theorem specific_mutate_testing_out_of_range fuel qc pool index Q w c :
  heap w !! qc = Some c ->
  Z.of_nat (length (data c)) <= index \/ index < - Z.of_nat (length (data c)) ->
  specific_mutate_testing fuel qc pool index Q w =
    (Raise (IndexError CircuitPosition),
     mkWorld (heap w) (entropy w) (cursor w)
             (trace w ++ [CallSpecificMutateTesting qc index])).
Proof.
  intros Hc Hout. unfold specific_mutate_testing. rewrite bind_record.
  unfold bind at 1. unfold load at 1. simpl. rewrite Hc.
  unfold bind at 1. rewrite data_getitem_item_at. simpl. rewrite Hc.
  unfold item_at. simpl. rewrite Hc.
  assert (Hnone : py_index (data c) index = None).
  { unfold py_index. repeat case_decide; try reflexivity; lia. }
  rewrite Hnone. reflexivity.
Qed.

Lemma wiring_overwrite (h : list QuantumCircuit) (qc : loc) c k old g :
  h !! qc = Some c -> data c !! k = Some old ->
  map wiring (overwrite qc c k (mkCircuitInstruction g (qubits old) []) h) = map wiring h.
Proof.
  intros Hc Hx. unfold overwrite.
  change (map wiring) with (fmap (M := list) wiring).
  rewrite list_fmap_insert. apply list_insert_id.
  unfold loc in Hc. rewrite list_lookup_fmap, Hc. simpl. f_equal.
  unfold wiring. simpl. change (map qubits) with (fmap (M := list) qubits).
  rewrite list_fmap_insert. symmetry. apply list_insert_id.
  rewrite list_lookup_fmap, Hx. reflexivity.
Qed.


(** X11: a position that holds a rotation gate holds a rotation gate after
    a call of [specific_mutate_testing], whatever the outcome, the pool and
    the qubit count. *)
Theorem specific_mutate_testing_rotation_stays fuel qc pool index Q w old :
  item_at w qc index = Some old ->
  is_rotational (operation old) = true ->
  exists new,
    item_at (specific_mutate_testing fuel qc pool index Q w).2 qc index = Some new /\
    is_rotational (operation new) = true.
Proof.
  intros Hold Hrot.
  destruct (specific_mutate_testing fuel qc pool index Q w) as [o w'] eqn:Hrun. simpl.
  apply specific_mutate_testing_effect in Hrun
    as [_ [Hsame | (c & k & old' & g & Hc & Hk & Hx & _ & Hok & Hheap)]].
  - exists old. split; [|exact Hrot].
    rewrite (item_at_same_heap w w') by exact Hsame. exact Hold.
  - assert (old' = old) as ->.
    { apply item_at_Some in Hold as (c' & k' & Hc' & Hk' & Hx'). congruence. }
    exists (mkCircuitInstruction g (qubits old) []). split.
    + rewrite <- (item_at_setitem w qc index c k _ Hc Hk).
      apply item_at_same_heap. exact Hheap.
    + simpl. destruct Hok as [Hg | [Hno _]]; [exact Hg | congruence].
Qed.

(** The constrained loop spins for as long as every matching draw is
    refused by the rotation floor. *)
Lemma redraw_testing_spins qc pool index old cur n Q :
  pool <> [] ->
  (forall d, In d pool -> accepts index old d = true ->
             is_rotational (instantiate d index) = false) ->
  cur = true \/ Z.of_nat n < Q ->
  forall fuel w,
    item_at w qc index = Some old ->
    redraw_testing fuel qc pool index cur n Q w = (OutOfFuel, skip_draws fuel w).
Proof.
  intros Hne Hno Hfloor. induction fuel as [|fuel IH]; intros w Hold; simpl.
  - unfold out_of_fuel. rewrite skip_draws_0. reflexivity.
  - unfold bind at 1. rewrite random_choice_spec.
    destruct (chosen_nonempty pool (entropy w (cursor w)) Hne) as [d Hd]. rewrite Hd.
    unfold bind at 1. rewrite data_getitem_item_at.
    rewrite (item_at_same_heap w (skip_draws 1 w)) by reflexivity.
    change (heap (skip_draws 1 w)) with (heap w).
    apply item_at_Some in Hold as Hex. destruct Hex as (c & k & Hc & _). rewrite Hc, Hold.
    assert (Hnext : redraw_testing fuel qc pool index cur n Q (skip_draws 1 w)
                    = (OutOfFuel, skip_draws (S fuel) w)).
    { rewrite IH by (rewrite (item_at_same_heap w (skip_draws 1 w)) by reflexivity;
                     exact Hold).
      rewrite skip_draws_add. reflexivity. }
    destruct (num_qubits (instantiate d index) =? num_qubits (operation old))%nat eqn:Hacc;
      [|exact Hnext].
    rewrite (Hno d (chosen_In _ _ _ Hd) Hacc). simpl.
    assert (Hgate : negb cur && (Q <=? Z.of_nat n) = false).
    { destruct Hfloor as [-> | Hlt]; [reflexivity|].
      apply Z.leb_gt in Hlt. rewrite Hlt. apply andb_false_r. }
    rewrite Hgate. exact Hnext.
Qed.

(** X12: the rotation floor can starve the constrained loop.  If the
    position holds a rotation gate, or the circuit has fewer rotation gates
    than qubits, and the non-empty pool offers no rotation gate of the arity
    found at the position, [specific_mutate_testing] is still drawing after
    any number of iterations, and the circuit stays as it was. *)
Theorem specific_mutate_testing_spins_below_floor qc pool index Q w c old :
  heap w !! qc = Some c ->
  item_at w qc index = Some old ->
  pool <> [] ->
  (forall d, In d pool -> accepts index old d = true ->
             is_rotational (instantiate d index) = false) ->
  is_rotational (operation old) = true \/ Z.of_nat (count_rotational (data c)) < Q ->
  forall fuel, exists w',
    specific_mutate_testing fuel qc pool index Q w = (OutOfFuel, w') /\
    heap w' = heap w /\ cursor w' = (cursor w + fuel)%nat.
Proof.
  intros Hc Hold Hne Hno Hfloor fuel. unfold specific_mutate_testing. rewrite bind_record.
  set (w1 := mkWorld (heap w) (entropy w) (cursor w) (trace w ++ _)).
  assert (Hold1 : item_at w1 qc index = Some old) by exact Hold.
  unfold bind at 1. unfold load at 1. change (heap w1) with (heap w). rewrite Hc.
  unfold bind at 1. rewrite data_getitem_item_at. change (heap w1) with (heap w).
  rewrite Hc, Hold1. unfold bind at 1.
  rewrite (redraw_testing_spins qc pool index old _ _ Q Hne Hno Hfloor fuel w1 Hold1).
  eexists. split; [reflexivity|]. split; reflexivity.
Qed.

(** Everything a returning call of [specific_mutate_testing] did. *)
Lemma specific_mutate_testing_Return fuel qc pool index Q w r w' :
  specific_mutate_testing fuel qc pool index Q w = (Return r, w') ->
  exists c k old g,
    heap w !! qc = Some c /\ py_index (data c) index = Some k /\
    data c !! k = Some old /\
    num_qubits g = num_qubits (operation old) /\
    (is_rotational g = true \/
     (is_rotational (operation old) = false /\ Q <= Z.of_nat (count_rotational (data c)))) /\
    heap w' = overwrite qc c k (mkCircuitInstruction g (qubits old) []) (heap w).
Proof.
  intros Hrun. unfold specific_mutate_testing in Hrun.
  rewrite bind_record in Hrun.
  remember (mkWorld (heap w) (entropy w) (cursor w) (trace w ++ _)) as w1 eqn:Hw1.
  assert (Hh1 : heap w1 = heap w) by (rewrite Hw1; reflexivity).
  clear Hw1.
  unfold bind at 1 in Hrun. unfold load at 1 in Hrun. rewrite Hh1 in Hrun.
  destruct (heap w !! qc) as [c|] eqn:Hc; [|discriminate].
  unfold bind at 1 in Hrun. rewrite data_getitem_item_at, Hh1, Hc in Hrun.
  rewrite (item_at_same_heap w w1 qc index Hh1) in Hrun.
  destruct (item_at w qc index) as [current|] eqn:Hcur; [|discriminate].
  unfold bind at 1 in Hrun.
  pose proof (preserves_heap_redraw_testing fuel qc pool index
                (is_rotational (operation current)) (count_rotational (data c)) Q w1) as Hh2.
  destruct (redraw_testing fuel qc pool index (is_rotational (operation current))
              (count_rotational (data c)) Q w1) as [[g| |] w2] eqn:Hloop;
    simpl in Hh2; try discriminate.
  apply redraw_testing_Return in Hloop as (old & d & Hold & _ & Hg & Hacc & Hfloor).
  rewrite (item_at_same_heap w w1 qc index Hh1), Hcur in Hold. injection Hold as <-.
  unfold bind at 1 in Hrun. rewrite data_getitem_item_at in Hrun.
  rewrite (item_at_same_heap w w2 qc index) in Hrun by congruence.
  rewrite Hh2, Hh1, Hc, Hcur in Hrun.
  apply item_at_Some in Hcur as (c' & k & Hc' & Hk & Hx).
  rewrite Hc in Hc'. injection Hc' as <-.
  unfold bind at 1 in Hrun. unfold data_setitem in Hrun. unfold bind at 1 in Hrun.
  unfold load at 1 in Hrun. rewrite Hh2, Hh1, Hc, Hk in Hrun.
  unfold ret in Hrun. injection Hrun as _ <-.
  exists c, k, current, g.
  split; [reflexivity|]. split; [exact Hk|]. split; [exact Hx|].
  split; [|split; [exact Hfloor|]].
  - unfold accepts in Hacc. apply Nat.eqb_eq in Hacc. rewrite Hg. exact Hacc.
  - simpl. rewrite Hh2, Hh1. reflexivity.
Qed.

Lemma count_rotational_insert_exact (l : list CircuitInstruction) (k : nat) old new :
  l !! k = Some old ->
  (count_rotational (<[k := new]> l) + (if is_rotational (operation old) then 1 else 0)
   = count_rotational l + (if is_rotational (operation new) then 1 else 0))%nat.
Proof.
  revert k. induction l as [|x l IH]; intros k Hk; [discriminate|].
  destruct k as [|k]; simpl in *.
  - injection Hk as ->. rewrite !count_rotational_cons. lia.
  - rewrite !count_rotational_cons. specialize (IH k Hk). lia.
Qed.

(** X13: below the floor the constrained mutator only writes rotation
    gates.  If the circuit has fewer rotation gates than qubits, a returning
    call of [specific_mutate_testing] leaves a rotation gate at the
    position, and on a position that held none the count has gone up by
    exactly one. *)
Theorem specific_mutate_testing_climbs_to_floor fuel qc pool index Q w r w' n old :
  specific_mutate_testing fuel qc pool index Q w = (Return r, w') ->
  rotations_at w qc = Some n ->
  Z.of_nat n < Q ->
  item_at w qc index = Some old ->
  exists new,
    item_at w' qc index = Some new /\
    is_rotational (operation new) = true /\
    rotations_at w' qc =
      Some (if is_rotational (operation old) then n else S n).
Proof.
  intros Hrun Hn Hlt Hold.
  apply specific_mutate_testing_Return in Hrun
    as (c & k & old' & g & Hc & Hk & Hx & _ & Hok & Hheap).
  assert (old' = old) as ->.
  { apply item_at_Some in Hold as (c' & k' & Hc' & Hk' & Hx'). congruence. }
  unfold rotations_at in Hn. rewrite Hc in Hn. injection Hn as <-.
  assert (Hg : is_rotational g = true).
  { destruct Hok as [Hg | [_ HQ]]; [exact Hg | lia]. }
  exists (mkCircuitInstruction g (qubits old) []). split; [|split; [exact Hg|]].
  - rewrite <- (item_at_setitem w qc index c k _ Hc Hk).
    apply item_at_same_heap. exact Hheap.
  - unfold rotations_at. rewrite Hheap. unfold overwrite.
    rewrite list_lookup_insert_eq by (eapply lookup_lt_Some; exact Hc). simpl.
    pose proof (count_rotational_insert_exact (data c) k old
                  (mkCircuitInstruction g (qubits old) []) Hx) as Hcount.
    simpl in Hcount. rewrite Hg in Hcount.
    destruct (is_rotational (operation old)); f_equal; lia.
Qed.

(** ** The constrained bitflip pass *)

Lemma rotations_not_lowered_refl qc (w : world) : rotations_not_lowered qc w w.
Proof. intros n Hn. exists n. auto. Qed.

Lemma rotations_not_lowered_trans qc (w1 w2 w3 : world) :
  rotations_not_lowered qc w1 w2 -> rotations_not_lowered qc w2 w3 ->
  rotations_not_lowered qc w1 w3.
Proof.
  intros H12 H23 n Hn. destruct (H12 n Hn) as (n2 & Hn2 & Hle).
  destruct (H23 n2 Hn2) as (n3 & Hn3 & Hle'). exists n3. split; [exact Hn3 | lia].
Qed.

Lemma rotations_not_lowered_same_heap {A} qc (m : M A) :
  preserves heap m -> maintains (rotations_not_lowered qc) m.
Proof.
  intros Hm w n Hn. exists n. split; [|lia]. unfold rotations_at in *.
  rewrite Hm. exact Hn.
Qed.

(** A constrained mutation of any circuit lowers the rotation count of no
    circuit. *)
Lemma specific_mutate_testing_lowers_nothing fuel target pool index Q qc :
  maintains (rotations_not_lowered qc) (specific_mutate_testing fuel target pool index Q).
Proof.
  intros w n Hn.
  destruct (specific_mutate_testing fuel target pool index Q w) as [o w'] eqn:Hrun. simpl.
  destruct (decide (qc = target)) as [-> | Hne].
  - exact (proj2 (specific_mutate_testing_rotations _ _ _ _ _ _ _ _ _ Hrun Hn)).
  - apply specific_mutate_testing_effect in Hrun
      as [_ [Hsame | (c & k & old & g & _ & _ & _ & _ & _ & Hheap)]];
      exists n; (split; [|lia]); unfold rotations_at in *.
    + rewrite Hsame. exact Hn.
    + rewrite Hheap. unfold overwrite. unfold loc in *.
      rewrite list_lookup_insert_ne by congruence. exact Hn.
Qed.

(** X14: the function made by [bitflip_mutate_with_normalizer_testing]
    never lowers the number of rotation gates of the circuit it is given,
    at any probability and however it ends, provided the injected
    normalizer does not lower it. *)
Theorem bitflip_testing_keeps_rotations pool normalizer_func prob Q fuel qc :
  (forall r, maintains (rotations_not_lowered qc) (normalizer_func r)) ->
  forall w n,
    rotations_at w qc = Some n ->
    exists n',
      rotations_at
        (bitflip_mutate_with_normalizer_testing pool normalizer_func prob Q fuel qc w).2 qc
        = Some n' /\
      (n <= n')%nat.
Proof.
  intros Hnorm.
  change (maintains (rotations_not_lowered qc)
            (bitflip_mutate_with_normalizer_testing pool normalizer_func prob Q fuel qc)).
  unfold bitflip_mutate_with_normalizer_testing.
  apply (maintains_bind _ (rotations_not_lowered_trans qc)).
  { apply rotations_not_lowered_same_heap. unfold num_gates_of.
    apply preserves_bind; [apply preserves_load | intros c; apply preserves_ret]. }
  intros num_gates. apply (maintains_bind _ (rotations_not_lowered_trans qc)).
  - apply (maintains_for_each _ (rotations_not_lowered_refl qc)
             (rotations_not_lowered_trans qc)).
    intros index target. unfold bitflip_step.
    apply (maintains_bind _ (rotations_not_lowered_trans qc)).
    + apply rotations_not_lowered_same_heap, preserves_heap_random_random.
    + intros r. destruct (float_lt r prob).
      * apply specific_mutate_testing_lowers_nothing.
      * apply (maintains_ret _ (rotations_not_lowered_refl qc)).
  - intros mutated. apply (maintains_bind _ (rotations_not_lowered_trans qc)).
    + apply rotations_not_lowered_same_heap, preserves_heap_record.
    + intros _. apply Hnorm.
Qed.

(** ** The rotation-count normalizer *)

Lemma by_num_rotation_gate_unfold {C : CountDividers} (num_rotation : Z) qc w :
  by_num_rotation_gate num_rotation qc w =
    match heap w !! qc with
    | None => (Raise NoSuchObject, w)
    | Some c =>
        if Z.of_nat (count_rotational (data c)) <=? num_rotation then (Return qc, w)
        else (let* (qc1, _rest) := divider_by_num_rotation_gate num_rotation qc in ret qc1) w
    end.
Proof.
  unfold by_num_rotation_gate. unfold bind at 1. unfold load.
  destruct (heap w !! qc) as [c|]; [|reflexivity].
  destruct (Z.of_nat (count_rotational (data c)) <=? num_rotation); reflexivity.
Qed.

Lemma bitflip_pass_keeps_shapes pool fuel prob (xs : list nat) qc :
  maintains shapes_kept
    (for_each xs (bitflip_step (fun qc index => specific_mutate fuel qc pool index) prob) qc).
Proof.
  apply (maintains_for_each _ shapes_kept_refl shapes_kept_trans).
  intros index q. unfold bitflip_step.
  apply (maintains_bind _ shapes_kept_trans).
  - apply shapes_kept_same_heap, preserves_heap_random_random.
  - intros r. destruct (float_lt r prob).
    + apply specific_mutate_keeps_shapes.
    + apply (maintains_ret _ shapes_kept_refl).
Qed.

Lemma bitflip_pass_Return pool fuel prob (xs : list nat) :
  forall qc w r w',
    for_each xs (bitflip_step (fun qc index => specific_mutate fuel qc pool index) prob) qc w
      = (Return r, w') ->
    r = qc.
Proof.
  induction xs as [|x xs IH]; intros qc w r w'; simpl.
  - intros [= <- _]. reflexivity.
  - unfold bind at 1. unfold bitflip_step at 1. unfold bind at 1.
    rewrite random_random_spec.
    destruct (float_lt _ prob).
    + pose proof (specific_mutate_Return fuel qc pool (Z.of_nat x) (skip_draws 1 w)) as Hr.
      destruct (specific_mutate fuel qc pool (Z.of_nat x) (skip_draws 1 w))
        as [[q| |] w1]; try discriminate.
      destruct (Hr q w1 eq_refl) as [-> _]. apply IH.
    + unfold ret at 1. apply IH.
Qed.

(** The rotation gates of a circuit are among its gates. *)
Lemma count_rotational_le (l : list CircuitInstruction) :
  (count_rotational l <= length l)%nat.
Proof. unfold count_rotational. apply List.filter_length_le. Qed.

(** X15: a rotation target at least the gate count of the circuit makes the
    rotation-count normalizer idle behind the bitflip pass.  Whatever the
    pool, the probability, the random source and the divider are, the
    function made by [bitflip_mutate_with_normalizer] with
    [by_num_rotation_gate(num_rotation)] then behaves as the pass followed
    by handing back the mutated circuit: the pass keeps the gate count, so
    the rotation count read on line 56 cannot exceed the target and the
    divider is never called. *)
Theorem bitflip_mutate_rotation_target_never_divides {C : CountDividers}
  pool (num_rotation : Z) prob fuel qc w c :
  heap w !! qc = Some c ->
  Z.of_nat (length (data c)) <= num_rotation ->
  bitflip_mutate_with_normalizer pool (by_num_rotation_gate num_rotation) prob fuel qc w =
    (let* mutated := bitflip_mutate pool prob fuel qc in
     let* _ := record (CallNormalizer mutated) in
     ret mutated) w.
Proof.
  intros Hc Hle.
  pose proof (bitflip_pass_keeps_shapes pool fuel prob (seq 0 (length (data c))) qc w)
    as Hshape.
  pose proof (bitflip_pass_Return pool fuel prob (seq 0 (length (data c))) qc w) as Hret.
  unfold bitflip_mutate_with_normalizer, bitflip_mutate, num_gates_of.
  unfold bind, load, ret, record. rewrite Hc.
  destruct (for_each (seq 0 (length (data c)))
              (bitflip_step (fun qc index => specific_mutate fuel qc pool index) prob) qc w)
    as [[r| |] w1]; try reflexivity.
  rewrite (Hret r w1 eq_refl). simpl in Hshape. unfold shapes_kept in Hshape.
  rewrite by_num_rotation_gate_unfold. cbn [heap].
  assert (Hqc : exists c', heap w1 !! qc = Some c' /\ length (data c') = length (data c)).
  { assert (Hl : (shape <$> heap w1) !! qc = Some (shape c)).
    { change (shape <$> heap w1) with (map shape (heap w1)). rewrite Hshape.
      change (map shape (heap w)) with (shape <$> heap w).
      rewrite list_lookup_fmap. unfold loc in *. rewrite Hc. reflexivity. }
    apply list_lookup_fmap_Some_1 in Hl as (c' & Hs & Hc').
    exists c'. split; [exact Hc'|]. unfold shape in Hs. injection Hs as Hd _.
    apply (f_equal (@length nat)) in Hd. rewrite !length_map in Hd. symmetry. exact Hd. }
  destruct Hqc as (c' & Hc' & Hlen). unfold loc in *. rewrite Hc'.
  pose proof (count_rotational_le (data c')) as Hcount.
  assert (Hb : (Z.of_nat (count_rotational (data c')) <=? num_rotation) = true)
    by (apply Z.leb_le; lia).
  rewrite Hb. reflexivity.
Qed.

(** ** What the Layerflip Mutator leaves in place *)

Lemma only_allocated_refl (w : world) : only_allocated w w.
Proof. exists []. rewrite app_nil_r. reflexivity. Qed.

Lemma only_allocated_trans (w1 w2 w3 : world) :
  only_allocated w1 w2 -> only_allocated w2 w3 -> only_allocated w1 w3.
Proof.
  intros [f1 H1] [f2 H2]. exists (f1 ++ f2). rewrite H2, H1, app_assoc. reflexivity.
Qed.

Lemma only_allocated_same_heap {A} (m : M A) : preserves heap m -> maintains only_allocated m.
Proof. intros Hm w. exists []. rewrite Hm, app_nil_r. reflexivity. Qed.

Lemma only_allocated_alloc (c : QuantumCircuit) : maintains only_allocated (alloc c).
Proof. intros w. exists [c]. reflexivity. Qed.

Lemma only_allocated_copy (qc : loc) : maintains only_allocated (copy qc).
Proof.
  unfold copy. apply (maintains_bind _ only_allocated_trans).
  - apply only_allocated_same_heap, preserves_load.
  - intros c. apply only_allocated_alloc.
Qed.

(** X16: [layerflip_mutate] itself writes to no circuit.  If the dividers,
    the composition, the truncation and the generator only allocate, then at
    any probability and however the call ends the heap has only grown: the
    circuit that was passed in, and every other one, is still what it
    was. *)
Theorem layerflip_mutate_only_allocates {D : Dividers} {U : Utilities} qc prob :
  (forall q d, maintains only_allocated (divide_circuit_by_depth q d)) ->
  (forall parts, maintains only_allocated (compose_circuit parts)) ->
  (forall q d, maintains only_allocated (truncate_circuit q d)) ->
  (forall n d, maintains only_allocated (generate_with_pool n d)) ->
  forall w, exists fresh, heap (layerflip_mutate qc prob w).2 = heap w ++ fresh.
Proof.
  intros Hdiv Hcomp Htrunc Hgen.
  change (maintains only_allocated (layerflip_mutate qc prob)).
  assert (Hrec : forall e, maintains only_allocated (record e)).
  { intros e. apply only_allocated_same_heap, preserves_heap_record. }
  assert (Hload : forall q, maintains only_allocated (load q)).
  { intros q. apply only_allocated_same_heap, preserves_load. }
  unfold layerflip_mutate.
  apply (maintains_bind _ only_allocated_trans).
  { unfold depth_of. apply (maintains_bind _ only_allocated_trans); [apply Hload|].
    intros c. apply (maintains_ret _ only_allocated_refl). }
  intros sd. apply (maintains_for_each _ only_allocated_refl only_allocated_trans).
  intros index q. unfold layerflip_step.
  apply (maintains_bind _ only_allocated_trans).
  { apply only_allocated_same_heap, preserves_heap_random_random. }
  intros r. destruct (float_lt r prob); [|apply (maintains_ret _ only_allocated_refl)].
  apply (maintains_bind _ only_allocated_trans); [apply Hrec | intros _].
  apply (maintains_bind _ only_allocated_trans); [apply Hdiv | intros [qc1 qc2]].
  apply (maintains_bind _ only_allocated_trans); [apply Hrec | intros _].
  apply (maintains_bind _ only_allocated_trans); [apply Hdiv | intros [qc21 qc22]].
  apply (maintains_bind _ only_allocated_trans).
  { unfold num_qubits_of. apply (maintains_bind _ only_allocated_trans); [apply Hload|].
    intros c. apply (maintains_ret _ only_allocated_refl). }
  intros n.
  apply (maintains_bind _ only_allocated_trans); [apply Hrec | intros _].
  apply (maintains_bind _ only_allocated_trans); [apply Hgen | intros genome].
  apply (maintains_bind _ only_allocated_trans); [apply Hrec | intros _].
  apply (maintains_bind _ only_allocated_trans); [apply Hcomp | intros composed].
  apply (maintains_bind _ only_allocated_trans); [apply only_allocated_copy | intros copied].
  apply (maintains_bind _ only_allocated_trans); [apply Hrec | intros _].
  apply Htrunc.
Qed.

(** The collaborators of the specification only allocate. *)
Lemma spec_divide_only_allocates q d :
  maintains only_allocated (SpecModel.spec_divide_circuit_by_depth q d).
Proof.
  unfold SpecModel.spec_divide_circuit_by_depth.
  apply (maintains_bind _ only_allocated_trans).
  { apply only_allocated_same_heap, preserves_load. }
  intros c. apply (maintains_bind _ only_allocated_trans); [apply only_allocated_alloc|].
  intros qc1. apply (maintains_bind _ only_allocated_trans); [apply only_allocated_alloc|].
  intros qc2. apply (maintains_ret _ only_allocated_refl).
Qed.

Lemma spec_compose_only_allocates parts :
  maintains only_allocated (SpecModel.spec_compose_circuit parts).
Proof.
  unfold SpecModel.spec_compose_circuit.
  apply (maintains_bind _ only_allocated_trans).
  { apply only_allocated_same_heap. destruct parts as [|p parts]; [apply preserves_ret|].
    unfold num_qubits_of.
    apply preserves_bind; [apply preserves_load | intros c; apply preserves_ret]. }
  intros n. apply (maintains_bind _ only_allocated_trans); [|intros all; apply only_allocated_alloc].
  apply only_allocated_same_heap. clear n.
  induction parts as [|p parts IH]; simpl; [apply preserves_ret|].
  apply preserves_bind; [apply preserves_load | intros c].
  apply preserves_bind; [exact IH | intros more; apply preserves_ret].
Qed.

Lemma spec_truncate_only_allocates q d :
  maintains only_allocated (SpecModel.spec_truncate_circuit q d).
Proof.
  unfold SpecModel.spec_truncate_circuit, by_depth.
  apply (maintains_bind _ only_allocated_trans).
  { apply only_allocated_same_heap. unfold depth_of.
    apply preserves_bind; [apply preserves_load | intros c; apply preserves_ret]. }
  intros sd. destruct (Z.of_nat sd <=? d); [apply (maintains_ret _ only_allocated_refl)|].
  apply (maintains_bind _ only_allocated_trans).
  { apply only_allocated_same_heap, preserves_heap_record. }
  intros _. apply (maintains_bind _ only_allocated_trans).
  { apply spec_divide_only_allocates. }
  intros [qc1 rest]. apply (maintains_ret _ only_allocated_refl).
Qed.

(** ** Well-formed circuits under the bitflip pass *)

Lemma well_formed_wiring_kept_refl (w : world) : well_formed_wiring_kept w w.
Proof. intros Hwf. auto. Qed.

Lemma well_formed_wiring_kept_trans (w1 w2 w3 : world) :
  well_formed_wiring_kept w1 w2 -> well_formed_wiring_kept w2 w3 ->
  well_formed_wiring_kept w1 w3.
Proof.
  intros H12 H23 Hwf. destruct (H12 Hwf) as [Hwf2 Hw2].
  destruct (H23 Hwf2) as [Hwf3 Hw3]. split; [exact Hwf3 | congruence].
Qed.

Lemma well_formed_wiring_kept_same_heap {A} (m : M A) :
  preserves heap m -> maintains well_formed_wiring_kept m.
Proof. intros Hm w Hwf. rewrite Hm. auto. Qed.

(** On a well-formed placement the rebinding of lines 27-30 keeps the
    target qubits. *)
Lemma rebind_well_formed (g : Instruction) (old : CircuitInstruction) :
  length (qubits old) = num_qubits (operation old) ->
  num_qubits g = num_qubits (operation old) ->
  rebind g old = mkCircuitInstruction g (qubits old) [].
Proof.
  intros Hlen Har. unfold rebind. f_equal. apply take_ge. lia.
Qed.

Lemma specific_mutate_keeps_well_formed fuel qc pool index :
  maintains well_formed_wiring_kept (specific_mutate fuel qc pool index).
Proof.
  intros w Hwf. destruct (specific_mutate fuel qc pool index w) as [o w'] eqn:Hrun. simpl.
  apply specific_mutate_effect in Hrun
    as [Hsame | (c & k & old & g & Hc & _ & Hx & Har & Hheap)].
  - rewrite Hsame. auto.
  - pose proof (proj1 (Forall_lookup _ _) Hwf qc c Hc) as Hwfc.
    pose proof (proj1 (Forall_lookup _ _) Hwfc k old Hx) as Hlen. simpl in Hlen.
    rewrite (rebind_well_formed g old Hlen Har) in Hheap. rewrite Hheap. split.
    + unfold overwrite. apply Forall_insert; [exact Hwf|].
      unfold well_formed. simpl. apply Forall_insert; [exact Hwfc|]. simpl. lia.
    + exact (wiring_overwrite _ _ _ _ old g Hc Hx).
Qed.

(** X17: the bitflip pass keeps the placement invariant and the wiring.  If
    every placement of every circuit has as many target qubits as its
    operation's arity, then at any probability and however the pass ends
    this still holds, and every placement is on the target qubits it was
    on. *)
Theorem bitflip_mutate_keeps_wiring pool prob fuel qc w :
  Forall well_formed (heap w) ->
  let w' := (bitflip_mutate pool prob fuel qc w).2 in
  Forall well_formed (heap w') /\ map wiring (heap w') = map wiring (heap w).
Proof.
  revert w. change (maintains well_formed_wiring_kept (bitflip_mutate pool prob fuel qc)).
  unfold bitflip_mutate.
  apply (maintains_bind _ well_formed_wiring_kept_trans).
  - apply well_formed_wiring_kept_same_heap. unfold num_gates_of.
    apply preserves_bind; [apply preserves_load | intros c; apply preserves_ret].
  - intros n. apply (maintains_for_each _ well_formed_wiring_kept_refl
                       well_formed_wiring_kept_trans).
    intros index q. unfold bitflip_step.
    apply (maintains_bind _ well_formed_wiring_kept_trans).
    + apply well_formed_wiring_kept_same_heap, preserves_heap_random_random.
    + intros r. destruct (float_lt r prob).
      * apply specific_mutate_keeps_well_formed.
      * apply (maintains_ret _ well_formed_wiring_kept_refl).
Qed.

(** ** Further runs on the sample circuits *)

(** X1 on the ladder circuit, position 1. *)
Lemma specific_mutate_only_touches_position_witness :
  let w := Samples.world_of Samples.ladder (Samples.counting 0) in
  let w' := (specific_mutate 5 0%nat Samples.pool12 1 w).2 in
  heap w !! 0%nat = Some Samples.ladder /\
  exists c',
    heap w' !! 0%nat = Some c' /\
    shape c' = shape Samples.ladder /\
    (forall k, py_index (data Samples.ladder) 1 <> Some k ->
               data c' !! k = data Samples.ladder !! k) /\
    (forall l, l <> 0%nat -> heap w' !! l = heap w !! l).
Proof.
  intros w w'.
  assert (Hc : heap w !! 0%nat = Some Samples.ladder) by reflexivity.
  split; [exact Hc|].
  exact (specific_mutate_only_touches_position 5 0%nat Samples.pool12 1 w Samples.ladder Hc).
Defined.

(** X3 on the ladder circuit, probability one half. *)
Lemma bitflip_mutate_calls_in_order_witness :
  let w := Samples.world_of Samples.ladder Samples.second_only in
  heap w !! 0%nat = Some Samples.ladder /\
  exists ys,
    sublist ys (seq 0 (length (data Samples.ladder))) /\
    trace (bitflip_mutate Samples.pool12 (1 # 2) 5 0%nat w).2
      = trace w ++ map (fun i => CallSpecificMutate 0%nat (Z.of_nat i)) ys.
Proof.
  intros w.
  assert (Hc : heap w !! 0%nat = Some Samples.ladder) by reflexivity.
  split; [exact Hc|].
  exact (bitflip_mutate_calls_in_order Samples.pool12 (1 # 2) 5 0%nat w Samples.ladder Hc).
Defined.

(** X6 on the ladder circuit, index -4. *)
Lemma specific_mutate_below_range_witness :
  let w := Samples.world_of Samples.ladder (Samples.counting 0) in
  heap w !! 0%nat = Some Samples.ladder /\
  -4 < - Z.of_nat (length (data Samples.ladder)) /\
  Samples.pool12 <> [] /\
  exists w',
    specific_mutate 1 0%nat Samples.pool12 (-4) w
      = (Raise (IndexError CircuitPosition), w') /\
    heap w' = heap w.
Proof.
  intros w.
  assert (Hc : heap w !! 0%nat = Some Samples.ladder) by reflexivity.
  assert (Hlt : -4 < - Z.of_nat (length (data Samples.ladder))) by (simpl; lia).
  assert (Hne : Samples.pool12 <> []) by discriminate.
  split; [exact Hc|]. split; [exact Hlt|]. split; [exact Hne|].
  exact (specific_mutate_below_range 0 0%nat Samples.pool12 (-4) w Samples.ladder Hc Hlt Hne).
Defined.

(** X7 on the ladder circuit, index -1: the h gate on q1 becomes rx. *)
Lemma specific_mutate_negative_index_witness :
  let w := Samples.world_of Samples.ladder (Samples.counting 2) in
  let run := specific_mutate 5 0%nat Samples.pool12 (-1) w in
  let k := Z.to_nat (Z.of_nat (length (data Samples.ladder)) + -1) in
  heap w !! 0%nat = Some Samples.ladder /\
  - Z.of_nat (length (data Samples.ladder)) <= -1 < 0 /\
  run = (Return 0%nat, run.2) /\
  exists c' old new,
    heap run.2 !! 0%nat = Some c' /\
    data Samples.ladder !! k = Some old /\ data c' !! k = Some new /\
    num_qubits (operation new) = num_qubits (operation old) /\
    (forall k', k' <> k -> data c' !! k' = data Samples.ladder !! k').
Proof.
  intros w run k.
  assert (Hc : heap w !! 0%nat = Some Samples.ladder) by reflexivity.
  assert (Hneg : - Z.of_nat (length (data Samples.ladder)) <= -1 < 0) by (simpl; lia).
  assert (Hrun : run = (Return 0%nat, run.2)) by (vm_compute; reflexivity).
  split; [exact Hc|]. split; [exact Hneg|]. split; [exact Hrun|].
  exact (specific_mutate_negative_index 5 0%nat Samples.pool12 (-1) w Samples.ladder
           0%nat run.2 Hc Hneg Hrun).
Defined.

(** X8 on the ladder circuit, position 1: the draw of h is rejected, the
    draw of cx is accepted. *)
Lemma specific_mutate_first_match_witness :
  let w := Samples.world_of Samples.ladder (Samples.counting 0) in
  let old := Samples.place "cx" [0%nat; 1%nat] in
  let d := Samples.gate "cx" 2 in
  item_at w 0%nat 1 = Some old /\
  length (qubits old) = num_qubits (operation old) /\
  params (instantiate d 1) = [] /\
  accepts 1 old d = true /\
  (forall i, (i < 1)%nat ->
     exists d', chosen Samples.pool12 (entropy w (cursor w + i)%nat) = Some d' /\
                accepts 1 old d' = false) /\
  chosen Samples.pool12 (entropy w (cursor w + 1)%nat) = Some d /\
  (1 < 5)%nat /\
  exists w',
    specific_mutate 5 0%nat Samples.pool12 1 w = (Return 0%nat, w') /\
    cursor w' = (cursor w + 2)%nat /\
    item_at w' 0%nat 1 =
      Some (let g := instantiate d 1 in
            if (num_qubits g =? 1)%nat || (num_qubits g =? 2)%nat
            then mkCircuitInstruction g (qubits old) [] else old).
Proof.
  intros w old d.
  assert (Hold : item_at w 0%nat 1 = Some old) by reflexivity.
  assert (Hlen : length (qubits old) = num_qubits (operation old)) by reflexivity.
  assert (Hfree : params (instantiate d 1) = []) by reflexivity.
  assert (Hacc : accepts 1 old d = true) by reflexivity.
  assert (Hrej : forall i, (i < 1)%nat ->
     exists d', chosen Samples.pool12 (entropy w (cursor w + i)%nat) = Some d' /\
                accepts 1 old d' = false).
  { intros i Hi. assert (i = 0%nat) as -> by lia.
    exists (Samples.gate "h" 1). split; reflexivity. }
  assert (Hhit : chosen Samples.pool12 (entropy w (cursor w + 1)%nat) = Some d)
    by reflexivity.
  assert (Hfuel : (1 < 5)%nat) by lia.
  split; [exact Hold|]. split; [exact Hlen|]. split; [exact Hfree|]. split; [exact Hacc|].
  split; [exact Hrej|]. split; [exact Hhit|]. split; [exact Hfuel|].
  exact (specific_mutate_first_match 0%nat Samples.pool12 1 old d 1 5 w
           Hold Hlen Hfree Hacc Hrej Hhit Hfuel).
Defined.

(** X9 on the ladder circuit, index 3, no fuel and an empty pool. *)
Lemma specific_mutate_testing_out_of_range_witness :
  let w := Samples.world_of Samples.ladder (Samples.counting 0) in
  heap w !! 0%nat = Some Samples.ladder /\
  (Z.of_nat (length (data Samples.ladder)) <= 3 \/
   3 < - Z.of_nat (length (data Samples.ladder))) /\
  specific_mutate_testing 0 0%nat [] 3 2 w =
    (Raise (IndexError CircuitPosition),
     mkWorld (heap w) (entropy w) (cursor w)
             (trace w ++ [CallSpecificMutateTesting 0%nat 3])).
Proof.
  intros w.
  assert (Hc : heap w !! 0%nat = Some Samples.ladder) by reflexivity.
  assert (Hout : Z.of_nat (length (data Samples.ladder)) <= 3 \/
                 3 < - Z.of_nat (length (data Samples.ladder))) by (left; simpl; lia).
  split; [exact Hc|]. split; [exact Hout|].
  exact (specific_mutate_testing_out_of_range 0 0%nat [] 3 2 w Samples.ladder Hc Hout).
Defined.

(** X11 on the circuit rx; ry; cx, position 0. *)
Lemma specific_mutate_testing_rotation_stays_witness :
  let w := Samples.world_of Samples.rotations (Samples.counting 0) in
  let old := mkCircuitInstruction (mkInstruction "rx" 1 [Param "0"]) [0%nat] [] in
  item_at w 0%nat 0 = Some old /\
  is_rotational (operation old) = true /\
  exists new,
    item_at (specific_mutate_testing 5 0%nat Samples.pool12 0 2 w).2 0%nat 0 = Some new /\
    is_rotational (operation new) = true.
Proof.
  intros w old.
  assert (Hold : item_at w 0%nat 0 = Some old) by reflexivity.
  assert (Hrot : is_rotational (operation old) = true) by reflexivity.
  split; [exact Hold|]. split; [exact Hrot|].
  exact (specific_mutate_testing_rotation_stays 5 0%nat Samples.pool12 0 2 w old Hold Hrot).
Defined.

(** X12 on the circuit rx; ry; cx, position 0, with a pool of h and cx. *)
Lemma specific_mutate_testing_spins_below_floor_witness :
  let w := Samples.world_of Samples.rotations (Samples.counting 0) in
  let old := mkCircuitInstruction (mkInstruction "rx" 1 [Param "0"]) [0%nat] [] in
  let pool := [Samples.gate "h" 1; Samples.gate "cx" 2] in
  heap w !! 0%nat = Some Samples.rotations /\
  item_at w 0%nat 0 = Some old /\
  pool <> [] /\
  (forall d, In d pool -> accepts 0 old d = true ->
             is_rotational (instantiate d 0) = false) /\
  (is_rotational (operation old) = true \/
   Z.of_nat (count_rotational (data Samples.rotations)) < 2) /\
  forall fuel, exists w',
    specific_mutate_testing fuel 0%nat pool 0 2 w = (OutOfFuel, w') /\
    heap w' = heap w /\ cursor w' = (cursor w + fuel)%nat.
Proof.
  intros w old pool.
  assert (Hc : heap w !! 0%nat = Some Samples.rotations) by reflexivity.
  assert (Hold : item_at w 0%nat 0 = Some old) by reflexivity.
  assert (Hne : pool <> []) by discriminate.
  assert (Hno : forall d, In d pool -> accepts 0 old d = true ->
                          is_rotational (instantiate d 0) = false).
  { intros d Hd _. simpl in Hd. destruct Hd as [<- | [<- | []]]; reflexivity. }
  assert (Hfloor : is_rotational (operation old) = true \/
                   Z.of_nat (count_rotational (data Samples.rotations)) < 2)
    by (left; reflexivity).
  split; [exact Hc|]. split; [exact Hold|]. split; [exact Hne|].
  split; [exact Hno|]. split; [exact Hfloor|].
  exact (specific_mutate_testing_spins_below_floor 0%nat pool 0 2 w Samples.rotations old
           Hc Hold Hne Hno Hfloor).
Defined.

(** X13 on the ladder circuit, which has no rotation gate: position 0 gets rx. *)
Lemma specific_mutate_testing_climbs_to_floor_witness :
  let w := Samples.world_of Samples.ladder (Samples.counting 0) in
  let run := specific_mutate_testing 5 0%nat Samples.pool12 0 2 w in
  let old := Samples.place "h" [0%nat] in
  run = (Return 0%nat, run.2) /\
  rotations_at w 0%nat = Some 0%nat /\
  Z.of_nat 0 < 2 /\
  item_at w 0%nat 0 = Some old /\
  exists new,
    item_at run.2 0%nat 0 = Some new /\
    is_rotational (operation new) = true /\
    rotations_at run.2 0%nat = Some (if is_rotational (operation old) then 0%nat else 1%nat).
Proof.
  intros w run old.
  assert (Hrun : run = (Return 0%nat, run.2)) by (vm_compute; reflexivity).
  assert (Hn : rotations_at w 0%nat = Some 0%nat) by reflexivity.
  assert (Hlt : Z.of_nat 0 < 2) by (simpl; lia).
  assert (Hold : item_at w 0%nat 0 = Some old) by reflexivity.
  split; [exact Hrun|]. split; [exact Hn|]. split; [exact Hlt|]. split; [exact Hold|].
  exact (specific_mutate_testing_climbs_to_floor 5 0%nat Samples.pool12 0 2 w 0%nat run.2
           0%nat old Hrun Hn Hlt Hold).
Defined.

(** X14 on the circuit rx; ry; cx with the normalizer that hands the
    circuit back. *)
Lemma bitflip_testing_keeps_rotations_witness :
  let w := Samples.world_of Samples.rotations (Samples.counting 0) in
  (forall r, maintains (rotations_not_lowered 0%nat) (@ret loc r)) /\
  rotations_at w 0%nat = Some 2%nat /\
  exists n',
    rotations_at
      (bitflip_mutate_with_normalizer_testing Samples.pool12 ret 1 2 5 0%nat w).2 0%nat
      = Some n' /\
    (2 <= n')%nat.
Proof.
  intros w.
  assert (Hnorm : forall r, maintains (rotations_not_lowered 0%nat) (@ret loc r)).
  { intros r. apply (maintains_ret _ (rotations_not_lowered_refl 0%nat)). }
  assert (Hn : rotations_at w 0%nat = Some 2%nat) by reflexivity.
  split; [exact Hnorm|]. split; [exact Hn|].
  exact (bitflip_testing_keeps_rotations Samples.pool12 ret 1 2 5 0%nat Hnorm w 2%nat Hn).
Defined.

(** X15 on the circuit rx; ry; cx with target 3, probability 1, and a
    divider that answers with two empty circuits. *)
Lemma bitflip_mutate_rotation_target_never_divides_witness :
  let w := Samples.world_of Samples.rotations (Samples.counting 0) in
  let empties := fun (_ : Z) (_ : loc) =>
    let* a := alloc (mkQuantumCircuit [] 2) in
    let* b := alloc (mkQuantumCircuit [] 2) in
    ret (a, b) in
  let C := Build_CountDividers empties empties in
  heap w !! 0%nat = Some Samples.rotations /\
  Z.of_nat (length (data Samples.rotations)) <= 3 /\
  bitflip_mutate_with_normalizer Samples.pool12 (by_num_rotation_gate 3) 1 5 0%nat w =
    (let* mutated := bitflip_mutate Samples.pool12 1 5 0%nat in
     let* _ := record (CallNormalizer mutated) in
     ret mutated) w.
Proof.
  intros w empties C.
  assert (Hc : heap w !! 0%nat = Some Samples.rotations) by reflexivity.
  assert (Hle : Z.of_nat (length (data Samples.rotations)) <= 3)
    by (vm_compute; discriminate).
  split; [exact Hc|]. split; [exact Hle|].
  exact (bitflip_mutate_rotation_target_never_divides
           Samples.pool12 3 1 5 0%nat w Samples.rotations Hc Hle).
Defined.

(** X16 over the collaborators of the specification and the generator of
    h layers, on the ladder circuit. *)
Lemma layerflip_mutate_only_allocates_witness :
  let w := Samples.world_of Samples.ladder Samples.second_only in
  let D := SpecModel.spec_dividers in
  let U := SpecModel.spec_utilities Samples.hadamard_layers in
  (forall q d, maintains only_allocated (divide_circuit_by_depth q d)) /\
  (forall parts, maintains only_allocated (compose_circuit parts)) /\
  (forall q d, maintains only_allocated (truncate_circuit q d)) /\
  (forall n d, maintains only_allocated (generate_with_pool n d)) /\
  exists fresh, heap (layerflip_mutate 0%nat (1 # 2) w).2 = heap w ++ fresh.
Proof.
  intros w D U.
  assert (Hgen : forall n d, maintains only_allocated (generate_with_pool n d)).
  { intros n d. apply only_allocated_alloc. }
  split; [exact spec_divide_only_allocates|].
  split; [exact spec_compose_only_allocates|].
  split; [exact spec_truncate_only_allocates|].
  split; [exact Hgen|].
  exact (layerflip_mutate_only_allocates 0%nat (1 # 2)
           spec_divide_only_allocates spec_compose_only_allocates
           spec_truncate_only_allocates Hgen w).
Defined.

(** X17 on the ladder circuit. *)
Lemma bitflip_mutate_keeps_wiring_witness :
  let w := Samples.world_of Samples.ladder (Samples.counting 0) in
  let w' := (bitflip_mutate Samples.pool12 1 5 0%nat w).2 in
  Forall well_formed (heap w) /\
  Forall well_formed (heap w') /\ map wiring (heap w') = map wiring (heap w).
Proof.
  intros w w'.
  assert (Hwf : Forall well_formed (heap w)).
  { repeat constructor. }
  split; [exact Hwf|].
  exact (bitflip_mutate_keeps_wiring Samples.pool12 1 5 0%nat w Hwf).
Defined.

(** X18 on the ladder circuit, position 0. *)
Lemma specific_mutate_overwrites_small_arity_witness :
  let w := Samples.world_of Samples.ladder (Samples.counting 2) in
  let run := specific_mutate 5 0%nat Samples.pool12 0 w in
  let old := Samples.place "h" [0%nat] in
  run = (Return 0%nat, run.2) /\
  item_at w 0%nat 0 = Some old /\
  (num_qubits (operation old) = 1%nat \/ num_qubits (operation old) = 2%nat) /\
  exists d,
    In d Samples.pool12 /\ accepts 0 old d = true /\
    item_at run.2 0%nat 0 = Some (rebind (instantiate d 0) old).
Proof.
  intros w run old.
  assert (Hrun : run = (Return 0%nat, run.2)) by (vm_compute; reflexivity).
  assert (Hold : item_at w 0%nat 0 = Some old) by reflexivity.
  assert (Har : num_qubits (operation old) = 1%nat \/ num_qubits (operation old) = 2%nat)
    by (left; reflexivity).
  split; [exact Hrun|]. split; [exact Hold|]. split; [exact Har|].
  exact (specific_mutate_overwrites_small_arity 5 0%nat Samples.pool12 0 w 0%nat run.2 old
           Hrun Hold Har).
Defined.

(** X5 on the ladder circuit, probability 1: the first position raises. *)
Lemma bitflip_mutate_empty_pool_witness :
  let w := Samples.world_of Samples.ladder (Samples.counting 0) in
  let run := bitflip_mutate [] 1 1 0%nat w in
  heap w !! 0%nat = Some Samples.ladder /\
  heap run.2 = heap w /\
  (run.1 = Return 0%nat \/ run.1 = Raise (IndexError EmptyChoice)).
Proof.
  intros w run.
  assert (Hc : heap w !! 0%nat = Some Samples.ladder) by reflexivity.
  split; [exact Hc|].
  exact (bitflip_mutate_empty_pool 1 0 0%nat w Samples.ladder Hc).
Defined.

(** ** The bitflip pass at probability 1 *)












